(** * Retrieval kernels of the RAG notebooks: segmenter, similarity engine,
      boundary selector, chunk assembler and retriever.

    The notebooks are Python.  Integers are unbounded ([Z]), strings are
    sequences of characters ([list ascii]), exceptions are an explicit
    [result] type, and numpy's float64 values are IEEE 754 binary64 numbers
    with their rounding.  Only the threshold statistics of the boundary
    selector are taken over the reals. *)

From Stdlib Require Import Ascii String.
From Stdlib Require Import List ZArith Lia Bool Arith Sorted Permutation.
From Stdlib Require Import Reals Lra Psatz.
From Stdlib Require Floats.SpecFloat.
Import ListNotations.
Open Scope string_scope.
Open Scope list_scope.

Set Implicit Arguments.

(* ================================================================= *)
(** * Part I: the model *)
(* ================================================================= *)

(** ** Python values and control *)

Module Py.

(** The exceptions the kernels can raise. *)
Inductive exn : Type :=
| ValueError
| IndexError.

Inductive result (A : Type) : Type :=
| Ok (a : A)
| Raise (e : exn).
Arguments Ok {A} a.
Arguments Raise {A} e.

Definition bind {A B} (m : result A) (f : A -> result B) : result B :=
  match m with
  | Ok a => f a
  | Raise e => Raise e
  end.

(** [mapM f l]: a loop or comprehension whose body may raise; the first
    exception aborts it. *)
Fixpoint mapM {A B} (f : A -> result B) (l : list A) : result (list B) :=
  match l with
  | [] => Ok []
  | x :: xs =>
      bind (f x) (fun y => bind (mapM f xs) (fun ys => Ok (y :: ys)))
  end.

(** A Python [str]. *)
Definition str : Type := list ascii.
Definition s (lit : string) : str := list_ascii_of_string lit.

(** Number of elements of [range(lo, hi, step)] for [step > 0]
    (CPython's [compute_range_length]). *)
Definition range_len (lo hi step : Z) : Z :=
  if (lo <? hi)%Z then ((hi - lo - 1) / step + 1)%Z else 0%Z.

(** [range(start, stop, step)]: a zero step raises [ValueError]. *)
Definition range (start stop step : Z) : result (list Z) :=
  if (step =? 0)%Z then Raise ValueError
  else
    let len := if (0 <? step)%Z then range_len start stop step
               else range_len stop start (- step) in
    Ok (map (fun i => (start + Z.of_nat i * step)%Z) (seq 0 (Z.to_nat len))).

(** Slice bounds are clamped to the sequence; a negative bound counts
    from the end ([PySlice_AdjustIndices] with step 1). *)
Definition adjust_index (i len : Z) : Z :=
  if (i <? 0)%Z then Z.max (i + len) 0 else Z.min i len.

(** [l[i:j]] *)
Definition slice {A} (l : list A) (i j : Z) : list A :=
  let len := Z.of_nat (length l) in
  let lo := adjust_index i len in
  let hi := adjust_index j len in
  firstn (Z.to_nat (hi - lo)) (skipn (Z.to_nat lo) l).

(** [l[i:]] *)
Definition slice_from {A} (l : list A) (i : Z) : list A :=
  skipn (Z.to_nat (adjust_index i (Z.of_nat (length l)))) l.

(** [l[:j]] *)
Definition slice_to {A} (l : list A) (j : Z) : list A :=
  firstn (Z.to_nat (adjust_index j (Z.of_nat (length l)))) l.

(** [l[i]]: a negative index counts from the end; out of range raises
    [IndexError]. *)
Definition getitem {A} (l : list A) (i : Z) : result A :=
  let len := Z.of_nat (length l) in
  let i' := if (i <? 0)%Z then (i + len)%Z else i in
  if (i' <? 0)%Z then Raise IndexError
  else match nth_error l (Z.to_nat i') with
       | Some x => Ok x
       | None => Raise IndexError
       end.

(** [sep.join(parts)] *)
Fixpoint join (sep : str) (parts : list str) : str :=
  match parts with
  | [] => []
  | [p] => p
  | p :: ps => p ++ sep ++ join sep ps
  end.

(** [enumerate(l)] *)
Definition enumerate {A} (l : list A) : list (nat * A) :=
  combine (seq 0 (length l)) l.

(** [a == b] on strings *)
Fixpoint str_eqb (a b : str) : bool :=
  match a, b with
  | [], [] => true
  | x :: a', y :: b' => Ascii.eqb x y && str_eqb a' b'
  | _, _ => false
  end.

(** Stable sorting by insertion: [x] goes behind the elements that must
    come strictly before it and in front of everything else, so elements
    that compare equal keep their input order.  On totally ordered keys this
    is the order [list.sort] produces, and the order of numpy's sort on short
    arrays. *)
Fixpoint insert_by {A} (before : A -> A -> bool) (x : A) (l : list A)
  : list A :=
  match l with
  | [] => [x]
  | y :: l' => if before y x then y :: insert_by before x l' else x :: y :: l'
  end.

Definition sort_by {A} (before : A -> A -> bool) (l : list A) : list A :=
  fold_right (insert_by before) [] l.

End Py.
Import Py.

Declare Scope py_scope.
Delimit Scope py_scope with py.
Notation "x <- m ;; k" := (bind m (fun x => k))
  (at level 61, m at next level, right associativity) : py_scope.
Open Scope py_scope.

(** ** Segmenter: fixed-size character windows with overlap
    ([chunk_text], notebooks 01 and 03) *)

Module Segmenter.

Definition chunk_text (text : str) (n overlap : Z) : result (list str) :=
  offsets <- range 0 (Z.of_nat (length text)) (n - overlap) ;;
  Ok (map (fun i => slice text i (i + n)) offsets).

End Segmenter.

(** ** IEEE 754 binary64: numpy's float64 and Python's float *)

Module Double.

(** A double is a signed zero, a signed infinity, NaN or a finite number
    [(-1)^s * m * 2^e].  The operations are those of the standard library's
    specification of binary floating point at precision 53: every result is
    rounded to nearest, ties to even, and overflows to an infinity. *)
Definition double : Type := SpecFloat.spec_float.

Definition prec : Z := 53.
Definition emax : Z := 1024.

Definition dnan : double := SpecFloat.S754_nan.

Definition dadd : double -> double -> double := SpecFloat.SFadd prec emax.
Definition dmul : double -> double -> double := SpecFloat.SFmul prec emax.
Definition ddiv : double -> double -> double := SpecFloat.SFdiv prec emax.
Definition dsqrt : double -> double := SpecFloat.SFsqrt prec emax.

(** [a < b] and [a <= b]: false as soon as one side is NaN. *)
Definition dlt : double -> double -> bool := SpecFloat.SFltb.
Definition dle : double -> double -> bool := SpecFloat.SFleb.

(** [a == b]: [0.0 == -0.0] holds and [NaN == NaN] does not. *)
Definition deq : double -> double -> bool := SpecFloat.SFeqb.

Definition is_dnan (a : double) : bool :=
  match a with SpecFloat.S754_nan => true | _ => false end.



(** [float(z)] for an integer [z]. *)
Definition of_Z (z : Z) : double :=
  SpecFloat.binary_normalize prec emax z 0 false.

(** Doubles are printed as they are. *)
Definition print_double (a : double) : option Z := None.

(** The order of the doubles that are not NaN is the lexicographic order of
    these keys: the sign class first, then exponent and mantissa. *)
Definition order_key (a : double) : Z * Z * Z :=
  match a with
  | SpecFloat.S754_zero _ | SpecFloat.S754_nan => (0, 0, 0)
  | SpecFloat.S754_infinity sign => (if sign then -2 else 2, 0, 0)
  | SpecFloat.S754_finite sign m e =>
      if sign then (-1, - e, - Z.pos m) else (1, e, Z.pos m)
  end%Z.

Definition key_lt (a b : Z * Z * Z) : Prop :=
  (fst (fst a) < fst (fst b)
   \/ fst (fst a) = fst (fst b)
      /\ (snd (fst a) < snd (fst b)
          \/ snd (fst a) = snd (fst b) /\ snd a < snd b))%Z.

End Double.
Import Double.

Declare Scope double_scope.
Delimit Scope double_scope with double.
Number Notation SpecFloat.spec_float of_Z print_double : double_scope.

(** ** numpy: the array functions the notebooks call *)

Module Numpy.

Definition vec : Type := list double.

(** The sum of the products of corresponding components, added in index
    order to [0.0].  numpy hands the sum to its BLAS, which may add long
    vectors in another order; the last place of the result can then
    differ. *)
Definition dot_value (v w : vec) : double :=
  fold_left (fun acc p => dadd acc (dmul (fst p) (snd p))) (combine v w)
            (of_Z 0).

(** [np.dot] on two 1-D arrays; different lengths raise [ValueError]. *)
Definition dot (v w : vec) : result double :=
  if (length v =? length w)%nat then Ok (dot_value v w) else Raise ValueError.

(** [np.linalg.norm] of a 1-D array: [sqrt(dot(x, x))]. *)
Definition norm (v : vec) : double := dsqrt (dot_value v v).

(** The order numpy sorts floats by: [<], with NaN after everything. *)
Definition sort_lt (a b : double) : bool :=
  dlt a b || (is_dnan b && negb (is_dnan a)).

(** [np.argsort] of a list of floats: the indices in ascending order of
    value, by insertion.  This is the order numpy's default sort produces
    whenever no two values are equal, and on arrays of at most 16 elements,
    which it sorts by insertion, also when values are equal; on longer
    arrays numpy leaves the order of equal values unspecified. *)
Definition argsort (a : list double) : list nat :=
  map fst (sort_by (fun y x => sort_lt (snd y) (snd x)) (enumerate a)).

Local Open Scope R_scope.

(** The threshold statistics of the boundary selector are taken over the
    reals: a similarity is a finite double, hence a real number, and
    [float64] holds the value of a statistic computed without rounding, or
    one of the IEEE special values. *)
Inductive float64 : Type :=
| Fin (x : R)
| PInf
| NInf
| NaN.

Definition Rltb (x y : R) : bool := if Rlt_dec x y then true else false.
Definition Rleb (x y : R) : bool := if Rle_dec x y then true else false.
Definition Reqb (x y : R) : bool := if Req_dec_T x y then true else false.

Definition fneg (a : float64) : float64 :=
  match a with
  | Fin x => Fin (- x)
  | PInf => NInf
  | NInf => PInf
  | NaN => NaN
  end.

Definition fadd (a b : float64) : float64 :=
  match a, b with
  | NaN, _ | _, NaN => NaN
  | Fin x, Fin y => Fin (x + y)
  | PInf, NInf | NInf, PInf => NaN
  | PInf, _ | _, PInf => PInf
  | NInf, _ | _, NInf => NInf
  end.

Definition fsub (a b : float64) : float64 := fadd a (fneg b).

(** Infinity with the sign of [x], NaN for zero. *)
Definition inf_times (x : R) (inf : float64) : float64 :=
  if Reqb x 0 then NaN else if Rltb 0 x then inf else fneg inf.

Definition fmul (a b : float64) : float64 :=
  match a, b with
  | NaN, _ | _, NaN => NaN
  | Fin x, Fin y => Fin (x * y)
  | Fin x, PInf | PInf, Fin x => inf_times x PInf
  | Fin x, NInf | NInf, Fin x => inf_times x NInf
  | PInf, PInf | NInf, NInf => PInf
  | PInf, NInf | NInf, PInf => NInf
  end.

(** Division never raises on float64: a zero divisor gives NaN for [0/0] and
    an infinity otherwise (numpy only emits a warning). *)
Definition fdiv (a b : float64) : float64 :=
  match a, b with
  | NaN, _ | _, NaN => NaN
  | Fin x, Fin y =>
      if Reqb y 0 then inf_times x PInf else Fin (x / y)
  | Fin _, PInf | Fin _, NInf => Fin 0
  | PInf, Fin y => if Rltb y 0 then NInf else PInf
  | NInf, Fin y => if Rltb y 0 then PInf else NInf
  | PInf, PInf | PInf, NInf | NInf, PInf | NInf, NInf => NaN
  end.

Definition fsqrt (a : float64) : float64 :=
  match a with
  | Fin x => if Rltb x 0 then NaN else Fin (sqrt x)
  | PInf => PInf
  | NInf | NaN => NaN
  end.

(** [a < b]: false as soon as one side is NaN. *)
Definition flt (a b : float64) : bool :=
  match a, b with
  | NaN, _ | _, NaN => false
  | Fin x, Fin y => Rltb x y
  | _, NInf => false
  | NInf, _ => true
  | PInf, _ => false
  | Fin _, PInf => true
  end.

Definition sum (v : list R) : R := fold_right Rplus 0 v.

(** [np.mean]: NaN on an empty array. *)
Definition mean (v : list R) : float64 :=
  fdiv (Fin (sum v)) (Fin (INR (length v))).

(** [np.std]: the population standard deviation. *)
Definition std (v : list R) : float64 :=
  match mean v with
  | Fin m => fsqrt (mean (map (fun x => (x - m) * (x - m)) v))
  | _ => NaN
  end.

(** [np.sort] on finite values. *)
Definition sort (v : list R) : list R := sort_by Rltb v.

(** [np.percentile(a, q)] with the default linear interpolation: the value at
    the fractional position [(n - 1) * q / 100] of the sorted array.  [q]
    outside [0, 100] raises [ValueError]; after that check an empty array
    raises [IndexError]. *)
Definition percentile (a : list R) (q : R) : result float64 :=
  if Rleb 0 q && Rleb q 100 then
    match a with
    | [] => Raise IndexError
    | _ =>
        let sorted := sort a in
        let n := length a in
        let virtual_index := INR (n - 1) * (q / 100) in
        let previous := Z.to_nat (Zfloor virtual_index) in
        let next := Nat.min (previous + 1) (n - 1) in
        let gamma := virtual_index - INR previous in
        Ok (Fin (nth previous sorted 0
                 + (nth next sorted 0 - nth previous sorted 0) * gamma))
    end
  else Raise ValueError.

End Numpy.
Import Numpy.

(** ** Similarity engine ([cosine_similarity], the same body in every
    notebook) *)

Module Similarity.

Definition cosine_similarity (vec1 vec2 : vec) : result double :=
  d <- dot vec1 vec2 ;;
  Ok (ddiv d (dmul (norm vec1) (norm vec2))).

End Similarity.
Import Similarity.

(** ** Boundary selector ([compute_breakpoints], semantic chunking notebook) *)

Module Boundary.

Definition compute_breakpoints (similarities : list R) (method : str)
           (threshold : R) : result (list nat) :=
  threshold_value <-
    (if str_eqb method (s "percentile") then
       percentile similarities threshold
     else if str_eqb method (s "standard_deviation") then
       let mean := mean similarities in
       let std_dev := std similarities in
       Ok (fsub mean (fmul (Fin threshold) std_dev))
     else if str_eqb method (s "interquartile") then
       q1 <- percentile similarities 25 ;;
       q3 <- percentile similarities 75 ;;
       Ok (fsub q1 (fmul (Fin 1.5) (fsub q3 q1)))
     else Raise ValueError) ;;
  Ok (map fst (filter (fun p => flt (Fin (snd p)) threshold_value)
                      (enumerate similarities))).

End Boundary.

(** ** Chunk assembler: sentences cut at breakpoints
    ([split_into_chunks], semantic chunking notebook) *)

Module Assembler.

(** The [for bp in breakpoints] loop, threading [chunks] and [start]. *)
Fixpoint split_loop (sentences : list str) (breakpoints : list Z)
         (chunks : list str) (start : Z) : list str * Z :=
  match breakpoints with
  | [] => (chunks, start)
  | bp :: rest =>
      split_loop sentences rest
        (chunks ++ [join (s ". ") (slice sentences start (bp + 1)) ++ s "."])
        (bp + 1)
  end.

Definition split_into_chunks (sentences : list str) (breakpoints : list Z)
  : list str :=
  let '(chunks, start) := split_loop sentences breakpoints [] 0 in
  chunks ++ [join (s ". ") (slice_from sentences start)].

End Assembler.

(** ** Retriever

    The embedding provider is an HTTP call outside the repository; it enters
    as a function from the query text to its embedding. *)

(** Notebook 01: scores paired with indices, [list.sort] descending. *)
Module SimpleRag.

Definition semantic_search (create_embeddings : str -> vec) (query : str)
           (text_chunks : list str) (embeddings : list vec) (k : Z)
  : result (list str) :=
  let query_embedding := create_embeddings query in
  similarity_scores <-
    mapM (fun p =>
            similarity_score <- cosine_similarity query_embedding (snd p) ;;
            Ok (fst p, similarity_score))
         (enumerate embeddings) ;;
  let similarity_scores :=
    sort_by (fun y x => dlt (snd x) (snd y)) similarity_scores in
  let top_indices := map fst (slice_to similarity_scores k) in
  mapM (fun index => getitem text_chunks (Z.of_nat index)) top_indices.

End SimpleRag.

(** Semantic chunking notebook (and [retrieve_relevant_chunks] of notebook
    03, which has the same body): [np.argsort(...)[-k:][::-1]]. *)
Module SemanticChunking.

Definition semantic_search (get_embedding : str -> vec) (query : str)
           (text_chunks : list str) (chunk_embeddings : list vec) (k : Z)
  : result (list str) :=
  let query_embedding := get_embedding query in
  similarities <-
    mapM (fun emb => cosine_similarity query_embedding emb) chunk_embeddings ;;
  let top_indices := rev (slice_from (argsort similarities) (- k)) in
  mapM (fun i => getitem text_chunks (Z.of_nat i)) top_indices.

End SemanticChunking.

(** Notebook 05: every chunk carries the embedding of its text and of its
    header; the score is the average of the two similarities. *)
Module ChunkHeaders.

Record chunk : Type := {
  header : str;
  text : str;
  embedding : vec;
  header_embedding : vec
}.

Definition semantic_search (create_embeddings : str -> vec) (query : str)
           (chunks : list chunk) (k : Z) : result (list chunk) :=
  let query_embedding := create_embeddings query in
  similarities <-
    mapM (fun chunk =>
            sim_text <- cosine_similarity query_embedding (embedding chunk) ;;
            sim_header <-
              cosine_similarity query_embedding (header_embedding chunk) ;;
            let avg_similarity := ddiv (dadd sim_text sim_header) (of_Z 2) in
            Ok (chunk, avg_similarity))
         chunks ;;
  let similarities := sort_by (fun y x => dlt (snd x) (snd y)) similarities in
  Ok (map fst (slice_to similarities k)).

End ChunkHeaders.

(** ** Vocabulary of the specification *)

Module Spec.

(** [ceil_div a b] is the ceiling of [a / b]. *)
Definition ceil_div (a b : Z) : Z := ((a + b - 1) / b)%Z.

(** Reassembly of overlapping windows: the first window followed by every
    later window without its leading [overlap] characters. *)
Definition remove_overlap (overlap : Z) (windows : list str) : str :=
  match windows with
  | [] => []
  | w :: rest => w ++ concat (map (fun w' => slice_from w' overlap) rest)
  end.

(** The unit runs the specification assigns to breakpoints
    [b0 < b1 < ...]: [units[start..b0]], [units[b0+1..b1]], ..., each
    breakpoint being the last unit of its run. *)
Fixpoint runs {A} (units : list A) (breakpoints : list nat) (start : nat)
  : list (list A) :=
  match breakpoints with
  | [] => []
  | b :: rest =>
      firstn (S b - start) (skipn start units) :: runs units rest (S b)
  end.

(** Index of the first unit after the last breakpoint. *)
Fixpoint rest_start (breakpoints : list nat) (start : nat) : nat :=
  match breakpoints with
  | [] => start
  | b :: rest => rest_start rest (S b)
  end.

(** The order a stable sort by [before] establishes: [x] may stand in front
    of [y] when [y] does not have to come first and, if neither has to, [x]
    came first in the input order [orig]. *)
Definition ranked {A} (before : A -> A -> bool) (orig : A -> A -> Prop)
           (x y : A) : Prop :=
  before y x = false /\ (before x y = false -> orig x y).

(** The float64 value [cosine_similarity] computes on vectors of equal
    length. *)
Definition sim (v w : vec) : double :=
  ddiv (dot_value v w) (dmul (norm v) (norm w)).

(** The score the retrievers compute for chunk number [i]: the similarity of
    the query embedding [q] to its embedding. *)
Definition score (q : vec) (embeddings : list vec) (i : nat) : double :=
  sim q (nth i embeddings []).

(** The score notebook 05 computes for a chunk: the float64 average of the
    similarities of [q] to its text and to its header. *)
Definition avg_score (q : vec) (c : ChunkHeaders.chunk) : double :=
  ddiv (dadd (sim q (ChunkHeaders.embedding c))
             (sim q (ChunkHeaders.header_embedding c)))
       (of_Z 2).

End Spec.

(** ** Further Python text operations *)

Module PyText.

(** [text.startswith(prefix)] *)
Fixpoint starts_with (prefix text : str) : bool :=
  match prefix, text with
  | [], _ => true
  | p :: prefix', c :: text' => Ascii.eqb p c && starts_with prefix' text'
  | _ :: _, [] => false
  end.

(** The scan of [text.split(sep)]: the text is cut at each occurrence of
    [sep] met from left to right, and the scan resumes behind the occurrence,
    so occurrences do not overlap.  [skip] counts the characters of a found
    occurrence that are still to be passed. *)
Fixpoint split_scan (sep : str) (skip : nat) (text : str) : list str :=
  match text with
  | [] => [[]]
  | c :: rest =>
      match skip with
      | S skip' => split_scan sep skip' rest
      | O =>
          if starts_with sep text
          then [] :: split_scan sep (length sep - 1) rest
          else match split_scan sep 0 rest with
               | piece :: pieces => (c :: piece) :: pieces
               | [] => [[c]]
               end
      end
  end.

(** [text.split(sep)]: an empty separator raises [ValueError]. *)
Definition split (text sep : str) : result (list str) :=
  match sep with
  | [] => Raise ValueError
  | _ => Ok (split_scan sep 0 text)
  end.

(** [c.isspace()] on the code points below 256. *)
Definition is_space (c : ascii) : bool :=
  let n := nat_of_ascii c in
  ((9 <=? n) && (n <=? 13) || (28 <=? n) && (n <=? 32)
   || (n =? 133) || (n =? 160))%nat.

(** [text.lstrip()] *)
Fixpoint lstrip (text : str) : str :=
  match text with
  | [] => []
  | c :: rest => if is_space c then lstrip rest else text
  end.

(** [text.rstrip()] *)
Definition rstrip (text : str) : str := rev (lstrip (rev text)).

(** [text.strip()] *)
Definition strip (text : str) : str := rstrip (lstrip text).

End PyText.
Import PyText.

(** ** Semantic chunking notebook: the cells around [compute_breakpoints] *)

Module SemanticCells.

(** [sentences = extracted_text.split(". ")] *)
Definition sentences (extracted_text : str) : result (list str) :=
  split extracted_text (s ". ").

(** [similarities = [cosine_similarity(embeddings[i], embeddings[i + 1])
                     for i in range(len(embeddings) - 1)]] *)
Definition similarities (embeddings : list vec) : result (list double) :=
  indices <- range 0 (Z.of_nat (length embeddings) - 1) 1 ;;
  mapM (fun i =>
          a <- getitem embeddings i ;;
          b <- getitem embeddings (i + 1) ;;
          cosine_similarity a b)
       indices.

End SemanticCells.

(** ** Notebook 03: chunk size selector *)

Module ChunkSizeSelector.

(** The PDF enters as the list of the texts of its pages; every page text
    gets a trailing space and the whole is stripped. *)
Definition extract_text_from_pdf (pages : list str) : str :=
  strip (fold_left (fun all_text page => all_text ++ (page ++ s " ")) pages []).

(** [{size: chunk_text(extracted_text, size, size // 5) for size in
    chunk_sizes}], as the list of its items in insertion order. *)
Definition text_chunks_dict (extracted_text : str) (chunk_sizes : list Z)
  : result (list (Z * list str)) :=
  mapM (fun size =>
          chunks <- Segmenter.chunk_text extracted_text size (size / 5) ;;
          Ok (size, chunks))
       chunk_sizes.

(** The provider of this notebook embeds a batch of texts. *)
Definition retrieve_relevant_chunks (create_embeddings : list str -> list vec)
           (query : str) (text_chunks : list str) (chunk_embeddings : list vec)
           (k : Z) : result (list str) :=
  query_embedding <- getitem (create_embeddings [query]) 0 ;;
  similarities <-
    mapM (fun emb => cosine_similarity query_embedding emb) chunk_embeddings ;;
  let top_indices := rev (slice_from (argsort similarities) (- k)) in
  mapM (fun i => getitem text_chunks (Z.of_nat i)) top_indices.

End ChunkSizeSelector.

(** ** Notebook 05: chunks with generated headers *)

Module HeaderChunks.

(** The chat provider maps a system prompt and a user message to the content
    of its answer. *)
Definition generate_chunk_header (complete : str -> str -> str) (chunk : str)
  : str :=
  let system_prompt :=
    s "Generate a concise and informative title for the given text." in
  strip (complete system_prompt chunk).

(** The dictionary [{"header": ..., "text": ...}]. *)
Record headed : Type := {
  header : str;
  text : str
}.

Definition chunk_text_with_headers (complete : str -> str -> str)
           (text : str) (n overlap : Z) : result (list headed) :=
  offsets <- range 0 (Z.of_nat (length text)) (n - overlap) ;;
  Ok (map (fun i =>
             let chunk := slice text i (i + n) in
             let header := generate_chunk_header complete chunk in
             {| header := header; text := chunk |})
          offsets).

(** The loop that embeds the text and the header of every chunk. *)
Definition embeddings (create_embeddings : str -> vec)
           (text_chunks : list headed) : list ChunkHeaders.chunk :=
  map (fun chunk =>
         let text_embedding := create_embeddings (text chunk) in
         let header_embedding := create_embeddings (header chunk) in
         {| ChunkHeaders.header := header chunk;
            ChunkHeaders.text := text chunk;
            ChunkHeaders.embedding := text_embedding;
            ChunkHeaders.header_embedding := header_embedding |})
      text_chunks.

End HeaderChunks.

(** ** A small corpus for the instances below *)

Module Sample.

(** A provider that embeds every query as [(1, 0)]. *)
Definition embed : str -> vec := fun _ => [1; 0]%double.

Definition query : str := s "q".

Definition chunks : list str := [s "a"; s "b"; s "c"].

Definition embeddings : list vec := [[0; 1]; [1; 0]; [1; 1]]%double.

Definition header_chunks : list ChunkHeaders.chunk :=
  [ {| ChunkHeaders.header := s "h1"; ChunkHeaders.text := s "t1";
       ChunkHeaders.embedding := [0; 1]%double;
       ChunkHeaders.header_embedding := [1; 1]%double |};
    {| ChunkHeaders.header := s "h2"; ChunkHeaders.text := s "t2";
       ChunkHeaders.embedding := [1; 0]%double;
       ChunkHeaders.header_embedding := [1; 1]%double |} ].

End Sample.

(* ================================================================= *)
(** * Part II: properties *)
(* ================================================================= *)

Import Segmenter Assembler Spec.

(** ** Lists, slices and ranges *)

Section ListFacts.
Context {A : Type}.

Lemma firstn_plus (a b : nat) (l : list A) :
  firstn (a + b) l = firstn a l ++ firstn b (skipn a l).
Proof.
  revert l; induction a as [|a IH]; intros [|x l]; simpl;
    try rewrite firstn_nil; try reflexivity.
  now rewrite IH.
Qed.

Lemma firstn_min_length (k : nat) (l : list A) :
  firstn (Nat.min k (length l)) l = firstn k l.
Proof.
  destruct (Nat.le_ge_cases k (length l)) as [H|H].
  - now rewrite Nat.min_l.
  - rewrite Nat.min_r by assumption.
    now rewrite !firstn_all2 by lia.
Qed.

(** A slice with non-negative bounds is [firstn] after [skipn]. *)
Lemma slice_window (l : list A) (o n : Z) :
  (0 <= o)%Z -> (0 <= n)%Z ->
  slice l o (o + n) = firstn (Z.to_nat n) (skipn (Z.to_nat o) l).
Proof.
  intros Ho Hn. unfold slice, adjust_index.
  destruct (Z.ltb_spec o 0); [lia|].
  destruct (Z.ltb_spec (o + n) 0); [lia|].
  destruct (Z.le_gt_cases o (Z.of_nat (length l))) as [Hle|Hgt].
  - rewrite (Z.min_l o) by assumption.
    rewrite <- (firstn_min_length (Z.to_nat n)).
    f_equal. rewrite length_skipn. lia.
  - rewrite (Z.min_r o) by lia.
    rewrite !skipn_all2 by lia. now rewrite !firstn_nil.
Qed.

Lemma slice_window_length (l : list A) (o n : Z) :
  (0 <= o <= Z.of_nat (length l))%Z -> (0 <= n)%Z ->
  Z.of_nat (length (slice l o (o + n)))
  = Z.min n (Z.of_nat (length l) - o).
Proof.
  intros Ho Hn. rewrite slice_window by lia.
  rewrite length_firstn, length_skipn. lia.
Qed.

Lemma slice_from_nonneg (l : list A) (i : Z) :
  (0 <= i)%Z -> slice_from l i = skipn (Z.to_nat i) l.
Proof.
  intros Hi. unfold slice_from, adjust_index.
  destruct (Z.ltb_spec i 0); [lia|].
  destruct (Z.le_gt_cases i (Z.of_nat (length l))).
  - now rewrite Z.min_l.
  - rewrite Z.min_r by lia. now rewrite !skipn_all2 by lia.
Qed.

End ListFacts.

Lemma ceil_div_spec (a b : Z) :
  (0 < b)%Z -> ((ceil_div a b - 1) * b < a <= ceil_div a b * b)%Z.
Proof.
  intros Hb. unfold ceil_div.
  pose proof (Z.div_mod (a + b - 1) b ltac:(lia)) as E.
  pose proof (Z.mod_pos_bound (a + b - 1) b Hb) as B.
  nia.
Qed.

Lemma ceil_div_nonneg (a b : Z) : (0 <= a)%Z -> (0 < b)%Z -> (0 <= ceil_div a b)%Z.
Proof. intros. unfold ceil_div. apply Z.div_pos; lia. Qed.

Lemma range_len_ceil (len step : Z) :
  (0 <= len)%Z -> (0 < step)%Z -> range_len 0 len step = ceil_div len step.
Proof.
  intros Hl Hs. unfold range_len, ceil_div.
  destruct (Z.ltb_spec 0 len).
  - replace (len + step - 1)%Z with (len - 0 - 1 + 1 * step)%Z by lia.
    now rewrite Z.div_add by lia.
  - assert (len = 0)%Z as -> by lia.
    symmetry. apply Z.div_small. lia.
Qed.

(** The offsets of a forward range from 0: the multiples of [step] below [len]. *)
Lemma range_from_zero (len step : Z) :
  (0 <= len)%Z -> (0 < step)%Z ->
  range 0 len step
  = Ok (map (fun k => (Z.of_nat k * step)%Z)
            (seq 0 (Z.to_nat (ceil_div len step)))).
Proof.
  intros Hl Hs. unfold range.
  destruct (Z.eqb_spec step 0); [lia|].
  destruct (Z.ltb_spec 0 step); [|lia].
  now rewrite range_len_ceil.
Qed.

Lemma range_backward_empty (len step : Z) :
  (0 <= len)%Z -> (step < 0)%Z -> range 0 len step = Ok [].
Proof.
  intros Hl Hs. unfold range, range_len.
  destruct (Z.eqb_spec step 0); [lia|].
  destruct (Z.ltb_spec 0 step); [lia|].
  destruct (Z.ltb_spec len 0); [lia|]. reflexivity.
Qed.

(** ** Segmenter *)

Example chunk_text_abcdefghij :
  chunk_text (s "abcdefghij") 4 1 = Ok (map s ["abcd"; "defg"; "ghij"; "j"]).
Proof. reflexivity. Qed.

Example chunk_text_abcdef_4_3 :
  chunk_text (s "abcdef") 4 3
  = Ok (map s ["abcd"; "bcde"; "cdef"; "def"; "ef"; "f"]).
Proof. reflexivity. Qed.

(** The loop of [chunk_text] for a positive step: one window per multiple of
    the step below [len(text)]. *)
Lemma chunk_text_offsets (text : str) (n overlap : Z) :
  (overlap < n)%Z ->
  chunk_text text n overlap
  = Ok (map (fun k => slice text (Z.of_nat k * (n - overlap))
                                 (Z.of_nat k * (n - overlap) + n))
            (seq 0 (Z.to_nat (ceil_div (Z.of_nat (length text)) (n - overlap))))).
Proof.
  intros H. unfold chunk_text.
  rewrite range_from_zero by lia. simpl.
  now rewrite map_map.
Qed.

Lemma chunk_text_overlap_eq (text : str) (n : Z) :
  chunk_text text n n = Raise ValueError.
Proof.
  unfold chunk_text, range. now rewrite Z.sub_diag.
Qed.

Lemma chunk_text_overlap_gt (text : str) (n overlap : Z) :
  (n < overlap)%Z -> chunk_text text n overlap = Ok [].
Proof.
  intros H. unfold chunk_text.
  now rewrite range_backward_empty by lia.
Qed.

(** Offsets below [len(text)] are exactly the first [ceil(len/step)]
    multiples of the step. *)
Lemma offset_in_range (len step : Z) (k : nat) :
  (0 <= len)%Z -> (0 < step)%Z ->
  (k < Z.to_nat (ceil_div len step))%nat <-> (Z.of_nat k * step < len)%Z.
Proof.
  intros Hl Hs.
  pose proof (ceil_div_spec len Hs) as [Hlo Hhi].
  pose proof (ceil_div_nonneg Hl Hs) as Hc.
  split; intros H; nia.
Qed.

Lemma stitch_prefix {A} (text : list A) (size keep m : nat) :
  (keep < size)%nat ->
  firstn size text
    ++ concat (map (fun k => skipn keep (firstn size (skipn (k * (size - keep)) text)))
                   (seq 1 m))
  = firstn (m * (size - keep) + size) text.
Proof.
  intros Hlt. induction m as [|m IH].
  - simpl. now rewrite app_nil_r.
  - rewrite seq_S, map_app, concat_app, app_assoc, IH. simpl concat.
    rewrite app_nil_r, skipn_firstn_comm, skipn_skipn.
    match goal with
    | |- context [skipn ?a text] =>
        replace a with (m * (size - keep) + size)%nat by nia
    end.
    rewrite <- firstn_plus. f_equal. nia.
Qed.

Lemma chunk_text_roundtrip (text : str) (n overlap : Z) :
  (0 <= overlap < n)%Z ->
  exists windows,
    chunk_text text n overlap = Ok windows
    /\ Z.of_nat (length windows) = ceil_div (Z.of_nat (length text)) (n - overlap)
    /\ remove_overlap overlap windows = text.
Proof.
  intros H. rewrite chunk_text_offsets by lia.
  set (len := Z.of_nat (length text)). set (step := (n - overlap)%Z).
  pose proof (@ceil_div_spec len step ltac:(lia)) as [Hlo Hhi].
  pose proof (@ceil_div_nonneg len step ltac:(lia) ltac:(lia)) as Hc.
  eexists; split; [reflexivity|]. split.
  - rewrite length_map, length_seq. lia.
  - destruct (Z.to_nat (ceil_div len step)) as [|m] eqn:Ecount.
    + simpl. destruct text; [reflexivity|].
      assert (ceil_div len step = 0)%Z as E0 by lia.
      rewrite E0 in Hhi. subst len; simpl length in *. exfalso; lia.
    + change (seq 0 (S m)) with (0%nat :: seq 1 m). cbn [map remove_overlap].
      rewrite map_map.
      rewrite (map_ext _
        (fun k => skipn (Z.to_nat overlap)
                    (firstn (Z.to_nat n)
                       (skipn (k * (Z.to_nat n - Z.to_nat overlap)) text)))).
      * rewrite slice_window by lia. change (Z.to_nat (Z.of_nat 0 * step)) with 0%nat.
        rewrite skipn_O, stitch_prefix by lia.
        apply firstn_all2. subst len. nia.
      * intros k. rewrite slice_from_nonneg, slice_window by nia.
        do 3 f_equal. subst step. nia.
Qed.

(** C4 (amended).  For [0 <= overlap < n], [chunk_text] returns one window per
    offset [0, step, 2*step, ...] below [len(text)], with [step = n - overlap];
    the window at offset [o] is [text[o : o+n]] and its length is
    [min(n, len(text) - o)]: a window is shorter than [n] exactly when fewer
    than [n] characters remain at its offset.  On ["abcdefghij"], 4, 1 the
    result is ["abcd"; "defg"; "ghij"; "j"]. *)
Theorem chunk_text_windows :
  (forall (text : str) (n overlap : Z),
      (0 <= overlap < n)%Z ->
      exists count : nat,
        chunk_text text n overlap
        = Ok (map (fun k => slice text (Z.of_nat k * (n - overlap))
                                       (Z.of_nat k * (n - overlap) + n))
                  (seq 0 count))
        /\ (forall k : nat,
               (k < count)%nat
               <-> (Z.of_nat k * (n - overlap) < Z.of_nat (length text))%Z)
        /\ (forall k : nat,
               (k < count)%nat ->
               Z.of_nat (length (slice text (Z.of_nat k * (n - overlap))
                                            (Z.of_nat k * (n - overlap) + n)))
               = Z.min n (Z.of_nat (length text) - Z.of_nat k * (n - overlap))))
  /\ chunk_text (s "abcdefghij") 4 1 = Ok (map s ["abcd"; "defg"; "ghij"; "j"]).
Proof.
  split; [|reflexivity].
  intros text n overlap H.
  exists (Z.to_nat (ceil_div (Z.of_nat (length text)) (n - overlap))).
  split; [now apply chunk_text_offsets|]. split.
  - intros k. apply offset_in_range; lia.
  - intros k Hk. apply offset_in_range in Hk; try lia.
    apply slice_window_length; nia.
Qed.

(** C4 on ["abcdefghij"], 4, 1. *)
Lemma chunk_text_windows_witness :
  (0 <= 1 < 4)%Z
  /\ exists count : nat,
      chunk_text (s "abcdefghij") 4 1
      = Ok (map (fun k => slice (s "abcdefghij") (Z.of_nat k * (4 - 1))
                                (Z.of_nat k * (4 - 1) + 4))
                (seq 0 count))
      /\ (forall k : nat,
             (k < count)%nat
             <-> (Z.of_nat k * (4 - 1) < Z.of_nat (length (s "abcdefghij")))%Z)
      /\ (forall k : nat,
             (k < count)%nat ->
             Z.of_nat (length (slice (s "abcdefghij") (Z.of_nat k * (4 - 1))
                                     (Z.of_nat k * (4 - 1) + 4)))
             = Z.min 4 (Z.of_nat (length (s "abcdefghij")) - Z.of_nat k * (4 - 1))).
Proof.
  split; [lia|].
  apply (proj1 chunk_text_windows (s "abcdefghij") 4%Z 1%Z). lia.
Defined.

(** C4 as claimed fails: with [n = 4], [overlap = 3] the text ["abcdef"]
    yields six windows, and the fourth and fifth, which are not the final
    one, are already shorter than [n]. *)
Lemma chunk_text_short_window_before_last :
  (0 <= 3 < 4)%Z
  /\ chunk_text (s "abcdef") 4 3
     = Ok (map s ["abcd"; "bcde"; "cdef"; "def"; "ef"; "f"])
  /\ (3 + 1 < length (map s ["abcd"; "bcde"; "cdef"; "def"; "ef"; "f"]))%nat
  /\ (Z.of_nat (length (nth 3 (map s ["abcd"; "bcde"; "cdef"; "def"; "ef"; "f"]) [])) < 4)%Z.
Proof. repeat split; simpl; lia. Qed.

(** C8.  For [0 < overlap < n] the number of windows is
    [ceil(len(text) / (n - overlap))] (so within one of it), and the windows,
    each later one stripped of its leading [overlap] characters, concatenate
    back to the text. *)
Theorem chunk_text_count_roundtrip (text : str) (n overlap : Z) :
  (0 < overlap < n)%Z ->
  exists windows,
    chunk_text text n overlap = Ok windows
    /\ (Z.abs (Z.of_nat (length windows)
               - ceil_div (Z.of_nat (length text)) (n - overlap)) <= 1)%Z
    /\ remove_overlap overlap windows = text.
Proof.
  intros H.
  destruct (@chunk_text_roundtrip text n overlap ltac:(lia)) as (ws & E & Hc & Hr).
  exists ws. repeat split; try assumption. lia.
Qed.

(** C8 on ["abcdefghij"], 4, 1. *)
Lemma chunk_text_count_roundtrip_witness :
  (0 < 1 < 4)%Z
  /\ exists windows,
      chunk_text (s "abcdefghij") 4 1 = Ok windows
      /\ (Z.abs (Z.of_nat (length windows)
                 - ceil_div (Z.of_nat (length (s "abcdefghij"))) (4 - 1)) <= 1)%Z
      /\ remove_overlap 1 windows = s "abcdefghij".
Proof.
  split; [lia|].
  apply (@chunk_text_count_roundtrip (s "abcdefghij") 4%Z 1%Z). lia.
Defined.

(** C6 as claimed fails: an overlap above the window size, and a window size
    of zero, both return a chunk list instead of failing. *)
Lemma chunk_text_invalid_config_returns :
  ((3 >= 2)%Z /\ chunk_text (s "abc") 2 3 = Ok [])
  /\ ((0 <= 0)%Z /\ chunk_text (s "abc") 0 (-1) = Ok (map s [""; ""; ""])).
Proof. repeat split; lia. Qed.

(** C6 (amended).  [chunk_text] has no configuration guard.  It fails only
    when [overlap = n], with the [ValueError] of a zero range step; when
    [overlap > n] it returns the empty list; when [overlap < n], also for
    [n <= 0], it returns [ceil(len(text) / (n - overlap))] chunks. *)
Theorem chunk_text_config_outcomes (text : str) (n overlap : Z) :
  (overlap = n -> chunk_text text n overlap = Raise ValueError)
  /\ ((n < overlap)%Z -> chunk_text text n overlap = Ok [])
  /\ ((overlap < n)%Z ->
      exists windows,
        chunk_text text n overlap = Ok windows
        /\ Z.of_nat (length windows)
           = ceil_div (Z.of_nat (length text)) (n - overlap)).
Proof.
  split; [|split].
  - intros ->. apply chunk_text_overlap_eq.
  - apply chunk_text_overlap_gt.
  - intros H. rewrite chunk_text_offsets by assumption.
    eexists; split; [reflexivity|].
    rewrite length_map, length_seq.
    pose proof (@ceil_div_nonneg (Z.of_nat (length text)) (n - overlap)).
    lia.
Qed.

(** C6 on ["abc"]: equal, larger and smaller overlap. *)
Lemma chunk_text_config_outcomes_witness :
  chunk_text (s "abc") 2 2 = Raise ValueError
  /\ chunk_text (s "abc") 2 3 = Ok []
  /\ exists windows,
      chunk_text (s "abc") 0 (-1) = Ok windows
      /\ Z.of_nat (length windows) = ceil_div (Z.of_nat (length (s "abc"))) (0 - -1).
Proof.
  split; [|split].
  - apply (proj1 (chunk_text_config_outcomes (s "abc") 2 2)). reflexivity.
  - apply (proj1 (proj2 (chunk_text_config_outcomes (s "abc") 2 3))). lia.
  - apply (proj2 (proj2 (chunk_text_config_outcomes (s "abc") 0 (-1)))). lia.
Defined.

(** C10.  For a window size [n >= 1], an overlap above [n] makes
    [chunk_text] return the empty list without any error, and an overlap
    equal to [n] aborts with the [ValueError] raised by [range] for a zero
    step. *)
Theorem chunk_text_overlap_at_least_size (text : str) (n overlap : Z) :
  (1 <= n)%Z ->
  ((n < overlap)%Z -> chunk_text text n overlap = Ok [])
  /\ (overlap = n -> chunk_text text n overlap = Raise ValueError).
Proof.
  intros _. split.
  - apply chunk_text_overlap_gt.
  - intros ->. apply chunk_text_overlap_eq.
Qed.

(** C10 on ["abcdefghij"] with window size 4 and overlaps 5 and 4. *)
Lemma chunk_text_overlap_at_least_size_witness :
  (1 <= 4)%Z
  /\ ((4 < 5)%Z /\ chunk_text (s "abcdefghij") 4 5 = Ok [])
  /\ chunk_text (s "abcdefghij") 4 4 = Raise ValueError.
Proof.
  split; [lia|]. split; [split; [lia|]|].
  - apply (proj1 (@chunk_text_overlap_at_least_size (s "abcdefghij") 4 5 ltac:(lia))).
    lia.
  - apply (proj2 (@chunk_text_overlap_at_least_size (s "abcdefghij") 4 4 ltac:(lia))).
    reflexivity.
Defined.

(** ** Chunk assembler *)

Section AssemblerFacts.
Context {A : Type}.

Lemma slice_nat (l : list A) (a b : nat) :
  slice l (Z.of_nat a) (Z.of_nat b) = firstn (b - a) (skipn a l).
Proof.
  destruct (Nat.le_gt_cases a b) as [Hab|Hab].
  - replace (Z.of_nat b) with (Z.of_nat a + Z.of_nat (b - a))%Z by lia.
    rewrite slice_window by lia. now rewrite !Nat2Z.id.
  - replace (b - a)%nat with 0%nat by lia.
    unfold slice, adjust_index.
    destruct (Z.ltb_spec (Z.of_nat a) 0); [lia|].
    destruct (Z.ltb_spec (Z.of_nat b) 0); [lia|].
    replace (Z.to_nat _) with 0%nat by lia. reflexivity.
Qed.

Lemma slice_from_nat (l : list A) (a : nat) :
  slice_from l (Z.of_nat a) = skipn a l.
Proof. rewrite slice_from_nonneg by lia. now rewrite Nat2Z.id. Qed.

Lemma last_firstn (k : nat) (l : list A) (d : A) :
  (k < length l)%nat -> last (firstn (S k) l) d = nth k l d.
Proof.
  revert l; induction k as [|k IH]; intros [|x l] H; simpl in *; try lia.
  - now destruct l.
  - rewrite <- IH by lia. destruct l; simpl in *; [lia|reflexivity].
Qed.

Lemma runs_length (units : list A) (bps : list nat) (start : nat) :
  length (runs units bps start) = length bps.
Proof.
  revert start; induction bps as [|b bps IH]; intros start; simpl;
    [reflexivity|now rewrite IH].
Qed.

(** The runs and the remaining units partition the units from [start] on. *)
Lemma runs_cover (units : list A) (bps : list nat) (start : nat) :
  StronglySorted lt bps -> Forall (le start) bps ->
  concat (runs units bps start) ++ skipn (rest_start bps start) units
  = skipn start units.
Proof.
  intros Hs; revert start.
  induction Hs as [|b bps Hs IH Hb]; intros start Hge; simpl; [reflexivity|].
  inversion Hge as [|? ? Hsb Hrest]; subst.
  rewrite <- app_assoc, IH.
  - rewrite <- (firstn_skipn (S b - start) (skipn start units)) at 2.
    rewrite skipn_skipn. do 2 f_equal. lia.
  - eapply Forall_impl; [|exact Hb]. simpl. lia.
Qed.

(** Run [i] is not empty, ends with unit [b_i], and the first [i+1] runs
    hold exactly the units from [start] to [b_i]. *)
Lemma runs_nth (units : list A) (d : A) (bps : list nat) (start i b : nat) :
  StronglySorted lt bps -> Forall (le start) bps ->
  Forall (fun b => b < length units)%nat bps ->
  nth_error bps i = Some b ->
  exists run,
    nth_error (runs units bps start) i = Some run
    /\ run <> []
    /\ last run d = nth b units d
    /\ (length (concat (firstn (S i) (runs units bps start))) + start
        = S b)%nat.
Proof.
  intros Hs; revert start i.
  induction Hs as [|b0 bps Hs IH Hb]; intros start i Hge Hlt Hi.
  - now destruct i.
  - inversion Hge as [|? ? Hsb _]; subst.
    inversion Hlt as [|? ? Hb0 Hlt']; subst.
    destruct i as [|i]; simpl in Hi.
    + injection Hi as <-. cbn [runs nth_error firstn concat].
      eexists; split; [reflexivity|].
      replace (S b0 - start)%nat with (S (b0 - start)) by lia.
      assert (b0 - start < length (skipn start units))%nat as Hlen
          by (rewrite length_skipn; lia).
      split; [|split].
      * destruct (skipn start units); simpl in *; [lia|intro; discriminate].
      * rewrite last_firstn by assumption.
        rewrite nth_skipn. f_equal. lia.
      * rewrite app_nil_r, length_firstn. lia.
    + destruct (IH (S b0) i) as (run & E & Hne & Hlast & Hpre); auto.
      exists run. cbn [runs nth_error]. repeat split; try assumption.
      change (firstn (S (S i)) (?x :: ?l)) with (x :: firstn (S i) l).
      cbn [concat]. rewrite length_app, length_firstn, length_skipn. lia.
Qed.

End AssemblerFacts.

(** The loop of [split_into_chunks] closes one run per breakpoint. *)
Lemma split_loop_runs (units : list str) (bps : list nat)
      (chunks : list str) (start : nat) :
  split_loop units (map Z.of_nat bps) chunks (Z.of_nat start)
  = (chunks ++ map (fun run => join (s ". ") run ++ s ".") (runs units bps start),
     Z.of_nat (rest_start bps start)).
Proof.
  revert chunks start; induction bps as [|b bps IH]; intros chunks start; simpl.
  - now rewrite app_nil_r.
  - replace (Z.of_nat b + 1)%Z with (Z.of_nat (S b)) by lia.
    rewrite IH, slice_nat, <- app_assoc. reflexivity.
Qed.

Lemma split_into_chunks_runs (units : list str) (bps : list nat) :
  split_into_chunks units (map Z.of_nat bps)
  = map (fun run => join (s ". ") run ++ s ".") (runs units bps 0)
    ++ [join (s ". ") (skipn (rest_start bps 0) units)].
Proof.
  unfold split_into_chunks.
  change 0%Z with (Z.of_nat 0).
  rewrite split_loop_runs. simpl app.
  now rewrite slice_from_nat.
Qed.

Lemma split_loop_length (units : list str) (bps : list Z)
      (chunks : list str) (start : Z) :
  length (fst (split_loop units bps chunks start)) = (length chunks + length bps)%nat.
Proof.
  revert chunks start; induction bps as [|b bps IH]; intros chunks start; simpl.
  - lia.
  - rewrite IH, length_app. simpl. lia.
Qed.

Lemma split_into_chunks_length (units : list str) (bps : list Z) :
  length (split_into_chunks units bps) = S (length bps).
Proof.
  unfold split_into_chunks.
  pose proof (split_loop_length units bps [] 0) as H.
  destruct (split_loop units bps [] 0) as [chunks start]. simpl in H.
  rewrite length_app, H. simpl. lia.
Qed.

(** C3.  [split_into_chunks] always returns [len(breakpoints) + 1] chunks, the
    whole unit sequence as one chunk when there is no breakpoint.  For
    strictly ascending in-range breakpoints the chunks are the runs
    [units[0..b0]], [units[b0+1..b1]], ..., then the remaining units: the runs
    partition the units, run [i] is not empty and ends with unit [b_i], and
    the first [i+1] runs hold exactly the units up to [b_i], so the next chunk
    starts at unit [b_i + 1].  Each run is joined with [". "], all but the
    last chunk getting a final ["."]; units ["A"; "B"; "C"; "D."] with
    breakpoints [1] give ["A. B."; "C. D."]. *)
Theorem split_into_chunks_partition :
  (forall (units : list str) (bps : list Z),
      length (split_into_chunks units bps) = S (length bps))
  /\ (forall units : list str,
         split_into_chunks units [] = [join (s ". ") units])
  /\ (forall (units : list str) (bps : list nat),
         StronglySorted lt bps ->
         Forall (fun b => (b < length units)%nat) bps ->
         split_into_chunks units (map Z.of_nat bps)
         = map (fun run => join (s ". ") run ++ s ".") (runs units bps 0)
           ++ [join (s ". ") (skipn (rest_start bps 0) units)]
         /\ concat (runs units bps 0) ++ skipn (rest_start bps 0) units = units
         /\ (forall i b,
                nth_error bps i = Some b ->
                exists run,
                  nth_error (runs units bps 0) i = Some run
                  /\ run <> []
                  /\ nth_error units b = Some (last run [])
                  /\ length (concat (firstn (S i) (runs units bps 0))) = S b))
  /\ split_into_chunks (map s ["A"; "B"; "C"; "D."]) [1%Z]
     = map s ["A. B."; "C. D."].
Proof.
  split; [exact split_into_chunks_length|].
  split; [|split; [|reflexivity]].
  { intros units. unfold split_into_chunks. simpl.
    now rewrite slice_from_nonneg by lia. }
  intros units bps Hs Hlt.
  assert (Forall (le 0) bps) as Hge
      by (apply Forall_forall; intros; lia).
  split; [apply split_into_chunks_runs|].
  split; [now rewrite runs_cover|].
  intros i b Hi.
  destruct (@runs_nth _ units [] bps 0 i b Hs Hge Hlt Hi) as (run & E & Hne & Hlast & Hpre).
  exists run. repeat split; try assumption.
  - rewrite Hlast. apply nth_error_nth'.
    rewrite Forall_forall in Hlt. apply Hlt. eapply nth_error_In; eassumption.
  - lia.
Qed.

(** C3 on the units ["A"; "B"; "C"; "D."] with breakpoint 1. *)
Lemma split_into_chunks_partition_witness :
  StronglySorted lt [1%nat]
  /\ Forall (fun b => (b < length (map s ["A"; "B"; "C"; "D."]))%nat) [1%nat]
  /\ split_into_chunks (map s ["A"; "B"; "C"; "D."]) (map Z.of_nat [1%nat])
     = map (fun run => join (s ". ") run ++ s ".")
           (runs (map s ["A"; "B"; "C"; "D."]) [1%nat] 0)
       ++ [join (s ". ")
                (skipn (rest_start [1%nat] 0) (map s ["A"; "B"; "C"; "D."]))]
  /\ concat (runs (map s ["A"; "B"; "C"; "D."]) [1%nat] 0)
       ++ skipn (rest_start [1%nat] 0) (map s ["A"; "B"; "C"; "D."])
     = map s ["A"; "B"; "C"; "D."].
Proof.
  assert (StronglySorted lt [1%nat]) as Hs by repeat constructor.
  assert (Forall (fun b => (b < length (map s ["A"; "B"; "C"; "D."]))%nat) [1%nat])
    as Hlt by (repeat constructor; simpl; lia).
  split; [exact Hs|]. split; [exact Hlt|].
  pose proof (proj1 (proj2 (proj2 split_into_chunks_partition)) _ _ Hs Hlt)
    as (E & Hc & _).
  split; assumption.
Defined.

(** ** Similarity engine *)

Section SimilarityFacts.
Local Open Scope R_scope.

Lemma Rltb_true (x y : R) : Rltb x y = true <-> x < y.
Proof. unfold Rltb. destruct (Rlt_dec x y); split; intros; try easy. Qed.

Lemma Rltb_false (x y : R) : Rltb x y = false <-> y <= x.
Proof.
  unfold Rltb. destruct (Rlt_dec x y); split; intros; try easy; lra.
Qed.

Lemma Rleb_true (x y : R) : Rleb x y = true <-> x <= y.
Proof. unfold Rleb. destruct (Rle_dec x y); split; intros; try easy. Qed.

Lemma Reqb_true (x y : R) : Reqb x y = true <-> x = y.
Proof. unfold Reqb. destruct (Req_dec_T x y); split; intros; try easy. Qed.

Lemma Reqb_false (x y : R) : Reqb x y = false <-> x <> y.
Proof. unfold Reqb. destruct (Req_dec_T x y); split; intros; try easy. Qed.

End SimilarityFacts.

Section DoubleFacts.

Lemma dmul_comm (x y : double) : dmul x y = dmul y x.
Proof.
  unfold dmul.
  destruct x as [sx|sx| |sx mx ex], y as [sy|sy| |sy my ey];
    cbn [SpecFloat.SFmul]; rewrite ?(xorb_comm sx sy); try reflexivity.
  now rewrite (Pos.mul_comm mx my), (Z.add_comm ex ey).
Qed.

(** [<] on doubles that are not NaN is the order of their keys. *)
Lemma dlt_order_key (x y : double) :
  is_dnan x = false -> is_dnan y = false ->
  dlt x y = true <-> key_lt (order_key x) (order_key y).
Proof.
  unfold dlt, SpecFloat.SFltb, key_lt.
  destruct x as [sx|sx| |sx mx ex], y as [sy|sy| |sy my ey]; intros Hx Hy;
    try discriminate; cbn [SpecFloat.SFcompare order_key];
    try (destruct sx); try (destruct sy); cbn [fst snd];
    change (PosDef.Pos.compare_cont Eq) with Pos.compare;
    try (destruct (Z.compare_spec ex ey));
    try (destruct (Pos.compare_spec mx my)); cbn [CompOpp];
    split; intros H'; try discriminate; try reflexivity; lia.
Qed.

Lemma dle_order_key (x y : double) :
  is_dnan x = false -> is_dnan y = false ->
  dle x y = true <-> ~ key_lt (order_key y) (order_key x).
Proof.
  unfold dle, SpecFloat.SFleb, key_lt.
  destruct x as [sx|sx| |sx mx ex], y as [sy|sy| |sy my ey]; intros Hx Hy;
    try discriminate; cbn [SpecFloat.SFcompare order_key];
    try (destruct sx); try (destruct sy); cbn [fst snd];
    change (PosDef.Pos.compare_cont Eq) with Pos.compare;
    try (destruct (Z.compare_spec ex ey));
    try (destruct (Pos.compare_spec mx my)); cbn [CompOpp];
    split; intros H'; try discriminate; try reflexivity; lia.
Qed.

Lemma dlt_not_nan (x y : double) :
  dlt x y = true -> is_dnan x = false /\ is_dnan y = false.
Proof.
  destruct x, y; try discriminate; split; reflexivity.
Qed.

Lemma dlt_asym (x y : double) : dlt x y = true -> dlt y x = false.
Proof.
  intros H. destruct (dlt_not_nan _ _ H) as [Hx Hy].
  apply dlt_order_key in H; try assumption.
  destruct (dlt y x) eqn:E; [|reflexivity].
  apply dlt_order_key in E; try assumption. unfold key_lt in *. lia.
Qed.

Lemma dlt_negtrans (x y z : double) :
  is_dnan y = false ->
  dlt x y = false -> dlt y z = false -> dlt x z = false.
Proof.
  intros Hy H1 H2.
  destruct (dlt x z) eqn:E; [|reflexivity].
  destruct (dlt_not_nan _ _ E) as [Hx Hz].
  apply dlt_order_key in E; try assumption.
  assert (~ key_lt (order_key x) (order_key y)) as N1
      by (intros K; apply dlt_order_key in K; congruence).
  assert (~ key_lt (order_key y) (order_key z)) as N2
      by (intros K; apply dlt_order_key in K; congruence).
  unfold key_lt in *. lia.
Qed.

Lemma deq_not_dlt (x y : double) :
  deq x y = true -> dlt x y = false /\ dlt y x = false.
Proof.
  unfold deq, dlt, SpecFloat.SFeqb, SpecFloat.SFltb.
  destruct x as [sx|sx| |sx mx ex], y as [sy|sy| |sy my ey];
    cbn [SpecFloat.SFcompare];
    try (destruct sx); try (destruct sy); try discriminate;
    try (split; reflexivity);
    change (PosDef.Pos.compare_cont Eq) with Pos.compare;
    rewrite (Z.compare_antisym ex ey), (Pos.compare_antisym mx my);
    destruct (ex ?= ey)%Z, (mx ?= my)%positive; cbn [CompOpp];
    try discriminate; split; reflexivity.
Qed.

(** Two doubles that are not NaN are equal or one is below the other. *)
Lemma dlt_total (x y : double) :
  is_dnan x = false -> is_dnan y = false ->
  dlt x y = true \/ deq x y = true \/ dlt y x = true.
Proof.
  unfold deq, dlt, SpecFloat.SFeqb, SpecFloat.SFltb.
  destruct x as [sx|sx| |sx mx ex], y as [sy|sy| |sy my ey]; intros Hx Hy;
    try discriminate; cbn [SpecFloat.SFcompare];
    try (destruct sx); try (destruct sy); auto;
    change (PosDef.Pos.compare_cont Eq) with Pos.compare;
    rewrite (Z.compare_antisym ex ey), (Pos.compare_antisym mx my);
    destruct (ex ?= ey)%Z, (mx ?= my)%positive; cbn [CompOpp]; auto.
Qed.

(** On doubles that are not NaN, [y <= x] says that [x < y] fails. *)
Lemma dle_not_dlt (x y : double) :
  is_dnan x = false -> is_dnan y = false ->
  dle y x = true <-> dlt x y = false.
Proof.
  intros Hx Hy. rewrite dle_order_key by assumption.
  split; intros H.
  - destruct (dlt x y) eqn:E; [|reflexivity].
    apply dlt_order_key in E; try assumption. contradiction.
  - intros K. apply dlt_order_key in K; try assumption. congruence.
Qed.

End DoubleFacts.

Section CosineFacts.

Lemma dot_same_length (v w : vec) :
  length v = length w -> dot v w = Ok (dot_value v w).
Proof. intros H. unfold dot. rewrite H, Nat.eqb_refl. reflexivity. Qed.

Lemma cosine_similarity_sim (v w : vec) :
  length v = length w -> cosine_similarity v w = Ok (sim v w).
Proof.
  intros H. unfold cosine_similarity. now rewrite dot_same_length.
Qed.

Lemma cosine_similarity_mismatch (v w : vec) :
  length v <> length w -> cosine_similarity v w = Raise ValueError.
Proof.
  intros H. unfold cosine_similarity, dot.
  now rewrite (proj2 (Nat.eqb_neq _ _) H).
Qed.








End CosineFacts.




(** ** Boundary selector *)

Import Boundary.

Section BoundaryFacts.
Local Open Scope R_scope.


(** The comprehension [[i for i, x in enumerate(l) if keep x]], with the
    enumeration starting at [start]. *)
Lemma filter_enumerate_sorted {A} (keep : A -> bool) (l : list A) (start : nat) :
  let picked :=
    map fst (filter (fun p => keep (snd p)) (combine (seq start (length l)) l)) in
  StronglySorted lt picked /\ Forall (le start) picked.
Proof.
  revert start; induction l as [|x l IH]; intros start; simpl.
  - split; constructor.
  - destruct (IH (S start)) as [Hs Hge].
    assert (Forall (lt start)
              (map fst (filter (fun p => keep (snd p))
                               (combine (seq (S start) (length l)) l)))) as Hlt
        by (eapply Forall_impl; [|exact Hge]; simpl; intros; lia).
    destruct (keep x); simpl.
    + split; [now constructor|].
      constructor; [lia|]. eapply Forall_impl; [|exact Hlt]. simpl; intros; lia.
    + split; [assumption|].
      eapply Forall_impl; [|exact Hlt]. simpl; intros; lia.
Qed.

Lemma filter_enumerate_in {A} (keep : A -> bool) (l : list A) (start i : nat) :
  In i (map fst (filter (fun p => keep (snd p))
                        (combine (seq start (length l)) l)))
  <-> exists x, (start <= i)%nat
                /\ nth_error l (i - start) = Some x /\ keep x = true.
Proof.
  revert start; induction l as [|x l IH]; intros start; simpl.
  - split; [contradiction|]. intros (y & _ & H & _).
    now destruct (i - start)%nat.
  - assert (In i (map fst (filter (fun p => keep (snd p))
                                  (combine (seq (S start) (length l)) l)))
            <-> exists y, (S start <= i)%nat
                          /\ nth_error (x :: l) (i - start) = Some y
                          /\ keep y = true) as IH'.
    { rewrite IH. split; intros (y & Hle & Hn & Hk); exists y;
        (split; [lia|split; [|assumption]]).
      - replace (i - start)%nat with (S (i - S start)) by lia. exact Hn.
      - replace (i - start)%nat with (S (i - S start)) in Hn by lia. exact Hn. }
    destruct (keep x) eqn:Hx; simpl; rewrite IH'.
    + split.
      * intros [<-|(y & Hle & Hn & Hk)].
        -- exists x. rewrite Nat.sub_diag. auto.
        -- exists y. split; [lia|auto].
      * intros (y & Hle & Hn & Hk).
        destruct (Nat.eq_dec start i) as [->|Hne]; [now left|right].
        exists y. split; [lia|auto].
    + split.
      * intros (y & Hle & Hn & Hk). exists y. split; [lia|auto].
      * intros (y & Hle & Hn & Hk). exists y. split; [|auto].
        destruct (Nat.eq_dec start i) as [->|Hne]; [|lia].
        rewrite Nat.sub_diag in Hn. simpl in Hn. congruence.
Qed.

End BoundaryFacts.

Lemma Rleb_false (x y : R) : Rleb x y = false <-> (y < x)%R.
Proof.
  unfold Rleb. destruct (Rle_dec x y); split; intros; try easy; lra.
Qed.

(** Settles the comparisons of concrete reals that a computation meets. *)
Ltac Rcompare :=
  repeat match goal with
    | |- context [Rltb ?a ?b] =>
        first [ rewrite (proj2 (Rltb_true a b)) by lra
              | rewrite (proj2 (Rltb_false a b)) by lra ]
    | |- context [Rleb ?a ?b] =>
        first [ rewrite (proj2 (Rleb_true a b)) by lra
              | rewrite (proj2 (Rleb_false a b)) by lra ]
    | |- context [Reqb ?a ?b] =>
        first [ rewrite (proj2 (Reqb_true a b)) by lra
              | rewrite (proj2 (Reqb_false a b)) by lra ]
    end.

Section BoundaryClaims.
Local Open Scope R_scope.

(** The median of the scenario's similarities is 0.91. *)
Lemma percentile_scenario :
  percentile [0.9; 0.95; 0.2; 0.92] 50 = Ok (Fin 0.91).
Proof.
  unfold percentile. Rcompare. cbn [andb].
  unfold sort, sort_by. cbn [fold_right insert_by]. Rcompare.
  cbn [insert_by]. Rcompare. cbn [insert_by]. Rcompare.
  cbn [length Nat.sub INR].
  rewrite (Zfloor_eq 1) by (simpl; lra).
  change (Z.to_nat 1) with 1%nat. cbn [Nat.add Nat.min nth INR].
  do 2 f_equal. lra.
Qed.

Lemma compute_breakpoints_scenario :
  compute_breakpoints [0.9; 0.95; 0.2; 0.92] (s "percentile") 50
  = Ok [0%nat; 2%nat].
Proof.
  unfold compute_breakpoints. cbn [s list_ascii_of_string str_eqb Ascii.eqb
                                   Bool.eqb andb].
  rewrite percentile_scenario. cbn [bind enumerate length seq combine filter snd flt].
  Rcompare. reflexivity.
Qed.




End BoundaryClaims.

(** ** Stable sorting *)

Section SortFacts.
Context {A : Type} (before : A -> A -> bool).

Lemma insert_by_perm (x : A) (l : list A) :
  Permutation (insert_by before x l) (x :: l).
Proof.
  induction l as [|y l IH]; simpl; [reflexivity|].
  destruct (before y x); [|reflexivity].
  rewrite IH. apply perm_swap.
Qed.

Lemma sort_by_perm (l : list A) : Permutation (sort_by before l) l.
Proof.
  induction l as [|x l IH]; simpl; [reflexivity|].
  rewrite insert_by_perm. now constructor.
Qed.

Lemma sort_by_length (l : list A) : length (sort_by before l) = length l.
Proof. apply Permutation_length, sort_by_perm. Qed.

(** [before] is a strict weak order on the elements satisfying [ok]; [orig]
    is the order of the input. *)
Variable ok : A -> Prop.
Variable orig : A -> A -> Prop.
Hypothesis before_asym :
  forall x y, ok x -> ok y -> before x y = true -> before y x = false.
Hypothesis before_negtrans :
  forall x y z, ok x -> ok y -> ok z ->
                before x y = false -> before y z = false -> before x z = false.

Lemma insert_by_sorted (x : A) (l : list A) :
  ok x -> Forall ok l -> Forall (orig x) l ->
  StronglySorted (ranked before orig) l ->
  StronglySorted (ranked before orig) (insert_by before x l).
Proof.
  intros Hx Hok Horig Hs.
  induction Hs as [|y l Hs IH Hy]; simpl.
  - repeat constructor.
  - inversion Hok as [|? ? Hoky Hokl]; subst.
    inversion Horig as [|? ? Hxy Hxl]; subst.
    destruct (before y x) eqn:Eyx.
    + constructor; [now apply IH|].
      eapply Permutation_Forall; [symmetry; apply insert_by_perm|].
      constructor; [|assumption].
      split; [now apply before_asym|congruence].
    + constructor; [now constructor|].
      constructor; [now split|].
      rewrite Forall_forall in *. intros z Hz. split; [|auto].
      apply before_negtrans with y; auto.
      now destruct (Hy z Hz).
Qed.

Lemma sort_by_sorted (l : list A) :
  Forall ok l -> StronglySorted orig l ->
  StronglySorted (ranked before orig) (sort_by before l).
Proof.
  intros Hok Hs. induction Hs as [|x l Hs IH Hx]; simpl; [constructor|].
  inversion Hok as [|? ? Hokx Hokl]; subst.
  apply insert_by_sorted; auto.
  - eapply Permutation_Forall; [symmetry; apply sort_by_perm|assumption].
  - eapply Permutation_Forall; [symmetry; apply sort_by_perm|assumption].
Qed.

End SortFacts.

Section SortedFacts.
Context {A B : Type}.

Lemma StronglySorted_map (R : A -> A -> Prop) (R' : B -> B -> Prop)
      (f : A -> B) (l : list A) :
  (forall x y, In x l -> In y l -> R x y -> R' (f x) (f y)) ->
  StronglySorted R l -> StronglySorted R' (map f l).
Proof.
  intros H Hs. induction Hs as [|x l Hs IH Hx]; simpl; constructor.
  - apply IH. intros; apply H; simpl; auto.
  - rewrite Forall_map. rewrite Forall_forall in *.
    intros y Hy. apply H; simpl; auto.
Qed.

Lemma StronglySorted_snoc (R : A -> A -> Prop) (l : list A) (x : A) :
  StronglySorted R l -> Forall (fun y => R y x) l -> StronglySorted R (l ++ [x]).
Proof.
  intros Hs Hx. induction Hs as [|y l Hs IH Hy]; simpl.
  - repeat constructor.
  - inversion Hx; subst. constructor; [now apply IH|].
    apply Forall_app. split; [assumption|now constructor].
Qed.

Lemma StronglySorted_rev (R : A -> A -> Prop) (l : list A) :
  StronglySorted R l -> StronglySorted (fun x y => R y x) (rev l).
Proof.
  intros Hs. induction Hs as [|x l Hs IH Hx]; simpl; [constructor|].
  apply StronglySorted_snoc; [assumption|].
  now apply Forall_rev.
Qed.

Lemma StronglySorted_firstn (R : A -> A -> Prop) (n : nat) (l : list A) :
  StronglySorted R l -> StronglySorted R (firstn n l).
Proof.
  intros Hs; revert n. induction Hs as [|x l Hs IH Hx]; intros [|n]; simpl;
    try constructor; auto.
  rewrite Forall_forall in *. intros y Hy. apply Hx.
  rewrite <- (firstn_skipn n l). apply in_or_app. now left.
Qed.

Lemma StronglySorted_map_id (R R' : A -> A -> Prop) (l : list A) :
  (forall x y, R x y -> R' x y) -> StronglySorted R l -> StronglySorted R' l.
Proof.
  intros H Hs. induction Hs as [|x l Hs IH Hx]; constructor; [exact IH|].
  eapply Forall_impl; [|exact Hx]. intros y. apply H.
Qed.

(** A sorted arrangement is unique when the order is asymmetric.  With the
    input order breaking ties, [ranked] is asymmetric on distinct positions,
    so every stable sort returns the list [sort_by] returns. *)
Lemma StronglySorted_perm_unique (R : A -> A -> Prop) (l1 l2 : list A) :
  (forall x y, R x y -> R y x -> False) ->
  StronglySorted R l1 -> StronglySorted R l2 -> Permutation l1 l2 -> l1 = l2.
Proof.
  intros Hasym Hs1; revert l2.
  induction Hs1 as [|x l1 Hs1 IH Hx]; intros l2 Hs2 Hp.
  - now apply Permutation_nil in Hp.
  - destruct l2 as [|y l2];
      [now apply Permutation_sym, Permutation_nil in Hp|].
    inversion Hs2 as [|? ? Hs2' Hy]; subst.
    rewrite Forall_forall in Hx, Hy.
    assert (x = y) as ->.
    { destruct (Permutation_in x Hp (or_introl eq_refl)) as [E|Hin]; [auto|].
      destruct (Permutation_in y (Permutation_sym Hp) (or_introl eq_refl))
        as [E|Hin']; [auto|].
      exfalso. apply (Hasym x y); auto. }
    f_equal. apply IH; [assumption|].
    now apply Permutation_cons_inv in Hp.
Qed.

End SortedFacts.

(** ** Retriever *)

Section RetrieverFacts.
Local Open Scope R_scope.

Lemma mapM_cosine (q : vec) (embeddings : list vec) :
  Forall (fun e => length e = length q) embeddings ->
  mapM (cosine_similarity q) embeddings = Ok (map (sim q) embeddings).
Proof.
  induction 1 as [|e l He _ IH]; simpl; [reflexivity|].
  rewrite cosine_similarity_sim by auto. simpl. now rewrite IH.
Qed.

Lemma mapM_cosine_indexed {I} (q : vec) (embeddings : list vec) (ids : list I) :
  Forall (fun e => length e = length q) embeddings ->
  mapM (fun p => similarity_score <- cosine_similarity q (snd p) ;;
                 Ok (fst p, similarity_score))
       (combine ids embeddings)
  = Ok (combine ids (map (sim q) embeddings)).
Proof.
  intros H; revert ids.
  induction H as [|e l He _ IH]; intros [|i ids]; simpl; try reflexivity.
  rewrite cosine_similarity_sim by auto. simpl. now rewrite IH.
Qed.

Lemma mapM_getitem {A} (l : list A) (d : A) (ids : list nat) :
  Forall (fun i => (i < length l)%nat) ids ->
  mapM (fun i => getitem l (Z.of_nat i)) ids = Ok (map (fun i => nth i l d) ids).
Proof.
  induction 1 as [|i ids Hi _ IH]; simpl; [reflexivity|].
  rewrite IH. unfold getitem.
  destruct (Z.ltb_spec (Z.of_nat i) 0); [lia|].
  destruct (Z.ltb_spec (Z.of_nat i) 0); [lia|].
  rewrite Nat2Z.id.
  rewrite (nth_error_nth' l d Hi). reflexivity.
Qed.

Lemma slice_to_nonneg {A} (l : list A) (k : Z) :
  (0 <= k)%Z -> slice_to l k = firstn (Z.to_nat k) l.
Proof.
  intros Hk. unfold slice_to, adjust_index.
  destruct (Z.ltb_spec k 0); [lia|].
  rewrite <- (firstn_min_length (Z.to_nat k)). f_equal. lia.
Qed.

(** [l[-k:][::-1]] for [k >= 1]: the first [k] elements of the reversed
    list. *)
Lemma rev_slice_from_neg {A} (l : list A) (k : Z) :
  (1 <= k)%Z -> rev (slice_from l (- k)) = firstn (Z.to_nat k) (rev l).
Proof.
  intros Hk. unfold slice_from, adjust_index.
  destruct (Z.ltb_spec (- k) 0); [|lia].
  rewrite firstn_rev. do 2 f_equal. lia.
Qed.

Lemma map_fst_combine {A B} (l : list A) (l' : list B) :
  length l = length l' -> map fst (combine l l') = l.
Proof.
  revert l'; induction l as [|x l IH]; intros [|y l'] H; simpl in *;
    try reflexivity; try discriminate.
  f_equal. apply IH. lia.
Qed.

Lemma map_fst_enumerate {A} (l : list A) :
  map fst (enumerate l) = seq 0 (length l).
Proof. apply map_fst_combine. now rewrite length_seq. Qed.

Lemma enumerate_from_sorted {A} (l : list A) (start : nat) :
  StronglySorted (fun p q : nat * A => (fst p < fst q)%nat)
                 (combine (seq start (length l)) l)
  /\ Forall (fun p => (start <= fst p)%nat) (combine (seq start (length l)) l).
Proof.
  revert start; induction l as [|x l IH]; intros start; simpl.
  - split; constructor.
  - destruct (IH (S start)) as [Hs Hge]. split.
    + constructor; [assumption|].
      eapply Forall_impl; [|exact Hge]. simpl; intros; lia.
    + constructor; [simpl; lia|].
      eapply Forall_impl; [|exact Hge]. simpl; intros; lia.
Qed.

Lemma enumerate_from_in {A} (l : list A) (start : nat) (p : nat * A) :
  In p (combine (seq start (length l)) l) ->
  (start <= fst p)%nat /\ nth_error l (fst p - start) = Some (snd p).
Proof.
  revert start; induction l as [|x l IH]; intros start; simpl; [contradiction|].
  intros [<-|H]; simpl.
  - rewrite Nat.sub_diag. auto.
  - destruct (IH _ H) as [Hle Hn]. split; [lia|].
    replace (fst p - start)%nat with (S (fst p - S start)) by lia. exact Hn.
Qed.

Lemma enumerate_in {A} (l : list A) (p : nat * A) :
  In p (enumerate l) -> nth_error l (fst p) = Some (snd p).
Proof.
  intros H. apply enumerate_from_in in H. now rewrite Nat.sub_0_r in H.
Qed.

End RetrieverFacts.

Section Rankings.

Variable q : vec.
Variable embeddings : list vec.
Hypothesis scores_not_nan :
  Forall (fun e => is_dnan (sim q e) = false) embeddings.

(** Every enumerated similarity is the score of its chunk, and a number. *)
Lemma enumerate_sim_score :
  Forall (fun p : nat * double =>
            snd p = score q embeddings (fst p) /\ is_dnan (snd p) = false)
         (enumerate (map (sim q) embeddings)).
Proof.
  apply Forall_forall. intros [i x] Hin. apply enumerate_in in Hin. simpl in *.
  rewrite nth_error_map in Hin.
  destruct (nth_error embeddings i) as [e|] eqn:E; [|discriminate].
  injection Hin as <-. unfold score.
  rewrite (nth_error_nth _ _ _ E). split; [reflexivity|].
  rewrite Forall_forall in scores_not_nan.
  apply scores_not_nan. exact (nth_error_In _ _ E).
Qed.

(** The ranking of notebook 01: descending scores, equal scores in index
    order. *)
Lemma sort_desc_ranking :
  StronglySorted
    (fun i j => dle (score q embeddings j) (score q embeddings i) = true
                /\ (deq (score q embeddings i) (score q embeddings j) = true ->
                    (i < j)%nat))
    (map fst (sort_by (fun y x : nat * double => dlt (snd x) (snd y))
                      (enumerate (map (sim q) embeddings)))).
Proof.
  set (before := fun y x : nat * double => dlt (snd x) (snd y)).
  set (ok := fun p : nat * double =>
               snd p = score q embeddings (fst p) /\ is_dnan (snd p) = false).
  set (orig := fun p r : nat * double => (fst p < fst r)%nat).
  assert (Forall ok (sort_by before (enumerate (map (sim q) embeddings)))) as Hok.
  { eapply Permutation_Forall; [symmetry; apply sort_by_perm|].
    apply enumerate_sim_score. }
  apply StronglySorted_map with (R := ranked before orig).
  - rewrite Forall_forall in Hok.
    intros x y Hx Hy [Hyx Htie]. apply Hok in Hx, Hy.
    destruct Hx as [Ex Nx], Hy as [Ey Ny].
    unfold before, orig in *. rewrite <- Ex, <- Ey. split.
    + now apply dle_not_dlt.
    + intros E. apply Htie. now apply deq_not_dlt in E.
  - apply sort_by_sorted with (ok := ok).
    + intros x y _ _. unfold before. apply dlt_asym.
    + intros x y z _ [_ Hy] _. unfold before. intros H1 H2.
      now apply dlt_negtrans with (y := snd y).
    + apply enumerate_sim_score.
    + apply (enumerate_from_sorted (map (sim q) embeddings) 0).
Qed.

(** The ranking of the argsort retrievers: the ascending order by insertion
    reversed, so descending scores with equal scores in reverse index
    order. *)
Lemma argsort_rev_ranking :
  StronglySorted
    (fun i j => dle (score q embeddings j) (score q embeddings i) = true
                /\ (deq (score q embeddings i) (score q embeddings j) = true ->
                    (j < i)%nat))
    (rev (argsort (map (sim q) embeddings))).
Proof.
  set (before := fun y x : nat * double => sort_lt (snd y) (snd x)).
  set (ok := fun p : nat * double =>
               snd p = score q embeddings (fst p) /\ is_dnan (snd p) = false).
  set (orig := fun p r : nat * double => (fst p < fst r)%nat).
  assert (forall x y : nat * double,
             ok x -> ok y -> sort_lt (snd x) (snd y) = dlt (snd x) (snd y))
    as Hb.
  { intros x y [_ Nx] [_ Ny]. unfold sort_lt. rewrite Nx, Ny.
    now rewrite orb_false_r. }
  assert (Forall ok (sort_by before (enumerate (map (sim q) embeddings)))) as Hok.
  { eapply Permutation_Forall; [symmetry; apply sort_by_perm|].
    apply enumerate_sim_score. }
  apply (StronglySorted_rev
           (R := fun i j =>
                   dle (score q embeddings i) (score q embeddings j) = true
                   /\ (deq (score q embeddings j) (score q embeddings i) = true
                       -> (i < j)%nat))).
  unfold argsort.
  apply StronglySorted_map with (R := ranked before orig).
  - rewrite Forall_forall in Hok.
    intros x y Hx Hy [Hyx Htie]. apply Hok in Hx, Hy.
    unfold before in Hyx, Htie.
    rewrite Hb in Hyx by assumption. rewrite Hb in Htie by assumption.
    destruct Hx as [Ex Nx], Hy as [Ey Ny].
    unfold orig in *. rewrite <- Ex, <- Ey. split.
    + now apply dle_not_dlt.
    + intros E. apply Htie. now apply deq_not_dlt in E.
  - apply sort_by_sorted with (ok := ok).
    + intros x y Hx Hy. unfold before. rewrite !Hb by assumption.
      apply dlt_asym.
    + intros x y z Hx Hy Hz. unfold before. rewrite !Hb by assumption.
      destruct Hy as [_ Ny]. intros H1 H2.
      now apply dlt_negtrans with (y := snd y).
    + apply enumerate_sim_score.
    + apply (enumerate_from_sorted (map (sim q) embeddings) 0).
Qed.

End Rankings.

Section SearchShape.

Variable embed : str -> vec.
Variable query : str.
Variable text_chunks : list str.
Variable embeddings : list vec.
Hypothesis same_length : length embeddings = length text_chunks.
Hypothesis same_dimension :
  Forall (fun e => length e = length (embed query)) embeddings.

Lemma ranking_perm (before : nat * double -> nat * double -> bool) :
  Permutation
    (map fst (sort_by before (enumerate (map (sim (embed query)) embeddings))))
    (seq 0 (length text_chunks)).
Proof.
  rewrite <- same_length, <- (length_map (sim (embed query)) embeddings).
  rewrite <- map_fst_enumerate.
  apply Permutation_map, sort_by_perm.
Qed.

Lemma ranking_in_range (ranking : list nat) (n : nat) :
  Permutation ranking (seq 0 (length text_chunks)) ->
  Forall (fun i => (i < length text_chunks)%nat) (firstn n ranking).
Proof.
  intros Hp. apply Forall_forall. intros i Hi.
  assert (In i ranking) as Hin
      by (rewrite <- (firstn_skipn n ranking); apply in_or_app; now left).
  apply (Permutation_in _ Hp) in Hin. apply in_seq in Hin. lia.
Qed.

(** Notebook 01 returns the chunks of the first [k] indices of its ranking. *)
Lemma simple_search_shape (k : Z) :
  (0 <= k)%Z ->
  SimpleRag.semantic_search embed query text_chunks embeddings k
  = Ok (map (fun i => nth i text_chunks [])
            (firstn (Z.to_nat k)
                    (map fst (sort_by (fun y x : nat * double => dlt (snd x) (snd y))
                                      (enumerate (map (sim (embed query))
                                                      embeddings)))))).
Proof.
  intros Hk. unfold SimpleRag.semantic_search, enumerate.
  rewrite mapM_cosine_indexed by assumption. cbn [bind].
  rewrite slice_to_nonneg by assumption.
  rewrite <- firstn_map, length_map.
  apply mapM_getitem, ranking_in_range.
  rewrite <- (length_map (sim (embed query)) embeddings).
  apply ranking_perm.
Qed.

(** The argsort retriever returns the chunks of the first [k] indices of the
    reversed ascending order. *)
Lemma argsort_search_shape (k : Z) :
  (1 <= k)%Z ->
  SemanticChunking.semantic_search embed query text_chunks embeddings k
  = Ok (map (fun i => nth i text_chunks [])
            (firstn (Z.to_nat k)
                    (rev (argsort (map (sim (embed query)) embeddings))))).
Proof.
  intros Hk. unfold SemanticChunking.semantic_search.
  rewrite mapM_cosine by assumption. cbn [bind].
  rewrite rev_slice_from_neg by assumption.
  apply mapM_getitem, ranking_in_range.
  rewrite <- Permutation_rev. apply ranking_perm.
Qed.

Lemma firstn_ranking_length (ranking : list nat) (k : Z) :
  Permutation ranking (seq 0 (length text_chunks)) ->
  length (firstn (Z.to_nat k) ranking)
  = Nat.min (Z.to_nat k) (length text_chunks).
Proof.
  intros Hp. rewrite length_firstn, (Permutation_length Hp), length_seq.
  reflexivity.
Qed.

End SearchShape.

Section RetrieverClaims.

(** C1 as claimed fails for the argsort retriever: two chunks with the same
    score come back in reverse index order, while notebook 01 keeps them in
    index order. *)
Lemma argsort_search_reverses_ties :
  score [1]%double [[1]; [1]]%double 0 = score [1]%double [[1]; [1]]%double 1
  /\ SemanticChunking.semantic_search (fun _ => [1]%double) (s "q")
       [s "a"; s "b"] [[1]; [1]]%double 2
     = Ok [s "b"; s "a"]
  /\ SimpleRag.semantic_search (fun _ => [1]%double) (s "q")
       [s "a"; s "b"] [[1]; [1]]%double 2
     = Ok [s "a"; s "b"].
Proof. repeat split; reflexivity. Qed.

(** C1 (amended).  For a non-empty list of chunks with their embeddings, of
    the query embedding's dimension and with a similarity to the query that
    is not NaN, and for [k >= 1], both retrievers return the chunks of the
    first [k] entries of a ranking of all chunk indices, hence
    [min(k, len(chunks))] results, along which the float64 scores the code
    computes never increase.  Equal scores stay in chunk-index order in
    notebook 01, which sorts stably in descending order.  The argsort
    retrievers reverse an ascending argsort: equal scores come in reverse
    chunk-index order where numpy's argsort is stable, which it is on at most
    16 scores. *)
Theorem semantic_search_ranked
        (embed : str -> vec) (query : str) (text_chunks : list str)
        (embeddings : list vec) (k : Z) :
  text_chunks <> [] ->
  length embeddings = length text_chunks ->
  (1 <= k)%Z ->
  Forall (fun e => length e = length (embed query)
                   /\ is_dnan (sim (embed query) e) = false)
         embeddings ->
  (exists (ranking : list nat) (results : list str),
      Permutation ranking (seq 0 (length text_chunks))
      /\ StronglySorted
           (fun i j =>
              dle (score (embed query) embeddings j)
                  (score (embed query) embeddings i) = true
              /\ (deq (score (embed query) embeddings i)
                      (score (embed query) embeddings j) = true ->
                  (i < j)%nat))
           ranking
      /\ SimpleRag.semantic_search embed query text_chunks embeddings k
         = Ok results
      /\ results
         = map (fun i => nth i text_chunks []) (firstn (Z.to_nat k) ranking)
      /\ length results = Nat.min (Z.to_nat k) (length text_chunks))
  /\ (exists (ranking : list nat) (results : list str),
         Permutation ranking (seq 0 (length text_chunks))
         /\ StronglySorted
              (fun i j =>
                 dle (score (embed query) embeddings j)
                     (score (embed query) embeddings i) = true
                 /\ ((length embeddings <= 16)%nat ->
                     deq (score (embed query) embeddings i)
                         (score (embed query) embeddings j) = true ->
                     (j < i)%nat))
              ranking
         /\ SemanticChunking.semantic_search embed query text_chunks
                                             embeddings k
            = Ok results
         /\ results
            = map (fun i => nth i text_chunks []) (firstn (Z.to_nat k) ranking)
         /\ length results = Nat.min (Z.to_nat k) (length text_chunks)).
Proof.
  intros _ Hlen Hk Hreg.
  assert (Forall (fun e => length e = length (embed query)) embeddings) as Hdim
      by (eapply Forall_impl; [|exact Hreg]; now intros e [? _]).
  assert (Forall (fun e => is_dnan (sim (embed query) e) = false) embeddings)
    as Hnum by (eapply Forall_impl; [|exact Hreg]; now intros e [_ ?]).
  split.
  - pose proof (@ranking_perm embed query text_chunks embeddings Hlen
                  (fun y x : nat * double => dlt (snd x) (snd y))) as Hp.
    eexists. eexists. split; [exact Hp|].
    split; [now apply sort_desc_ranking|].
    split; [apply simple_search_shape; auto; lia|].
    split; [reflexivity|].
    rewrite length_map. now apply firstn_ranking_length.
  - pose proof (@ranking_perm embed query text_chunks embeddings Hlen
                  (fun y x : nat * double => sort_lt (snd y) (snd x))) as Hp.
    apply (Permutation_trans (Permutation_sym (Permutation_rev _))) in Hp.
    eexists. eexists. split; [exact Hp|]. split.
    { eapply StronglySorted_map_id; [|now apply argsort_rev_ranking].
      intros i j [Hle Htie]. split; [exact Hle|]. intros _. exact Htie. }
    split; [apply argsort_search_shape; auto|].
    split; [reflexivity|].
    rewrite length_map. now apply firstn_ranking_length.
Qed.

(** C7 as claimed fails: a search over an empty corpus returns the empty
    list in both retrievers; no error is raised. *)
Lemma search_empty_corpus_returns_empty :
  SimpleRag.semantic_search (fun _ => [1]%double) (s "q") [] [] 5 = Ok []
  /\ SemanticChunking.semantic_search (fun _ => [1]%double) (s "q") [] [] 5
     = Ok [].
Proof. split; reflexivity. Qed.

(** C7 (amended).  On an empty chunk list the search returns the empty list
    and raises nothing; when [0 < len(chunks) < k] it succeeds and returns
    [len(chunks)] results. *)
Theorem semantic_search_small_corpus :
  (forall (embed : str -> vec) (query : str) (k : Z),
      SimpleRag.semantic_search embed query [] [] k = Ok []
      /\ SemanticChunking.semantic_search embed query [] [] k = Ok [])
  /\ (forall (embed : str -> vec) (query : str) (text_chunks : list str)
             (embeddings : list vec) (k : Z),
         length embeddings = length text_chunks ->
         Forall (fun e => length e = length (embed query)) embeddings ->
         (0 < Z.of_nat (length text_chunks) < k)%Z ->
         (exists results,
             SimpleRag.semantic_search embed query text_chunks embeddings k
             = Ok results
             /\ length results = length text_chunks)
         /\ (exists results,
                SemanticChunking.semantic_search embed query text_chunks
                                                 embeddings k
                = Ok results
                /\ length results = length text_chunks)).
Proof.
  split.
  - intros embed query k. split.
    + unfold SimpleRag.semantic_search, slice_to. simpl.
      now rewrite firstn_nil.
    + unfold SemanticChunking.semantic_search, slice_from. simpl.
      now rewrite skipn_nil.
  - intros embed query text_chunks embeddings k Hlen Hdim Hk. split.
    + rewrite simple_search_shape by (auto; lia).
      eexists; split; [reflexivity|].
      rewrite length_map, firstn_ranking_length with (text_chunks := text_chunks);
        [lia|now apply ranking_perm].
    + rewrite argsort_search_shape by (auto; lia).
      eexists; split; [reflexivity|].
      rewrite length_map, firstn_ranking_length with (text_chunks := text_chunks);
        [lia|].
      rewrite <- Permutation_rev. now apply ranking_perm.
Qed.

End RetrieverClaims.

Section RetrieverWitnesses.
Import Sample.

(** C1 on the sample corpus with [k = 2]. *)
Lemma semantic_search_ranked_witness :
  chunks <> []
  /\ length embeddings = length chunks
  /\ (1 <= 2)%Z
  /\ Forall (fun e => length e = length (embed query)
                      /\ is_dnan (sim (embed query) e) = false)
            embeddings
  /\ (exists (ranking : list nat) (results : list str),
         Permutation ranking (seq 0 (length chunks))
         /\ StronglySorted
              (fun i j =>
                 dle (score (embed query) embeddings j)
                     (score (embed query) embeddings i) = true
                 /\ (deq (score (embed query) embeddings i)
                         (score (embed query) embeddings j) = true ->
                     (i < j)%nat))
              ranking
         /\ SimpleRag.semantic_search embed query chunks embeddings 2
            = Ok results
         /\ results = map (fun i => nth i chunks []) (firstn (Z.to_nat 2) ranking)
         /\ length results = Nat.min (Z.to_nat 2) (length chunks))
  /\ (exists (ranking : list nat) (results : list str),
         Permutation ranking (seq 0 (length chunks))
         /\ StronglySorted
              (fun i j =>
                 dle (score (embed query) embeddings j)
                     (score (embed query) embeddings i) = true
                 /\ ((length embeddings <= 16)%nat ->
                     deq (score (embed query) embeddings i)
                         (score (embed query) embeddings j) = true ->
                     (j < i)%nat))
              ranking
         /\ SemanticChunking.semantic_search embed query chunks embeddings 2
            = Ok results
         /\ results = map (fun i => nth i chunks []) (firstn (Z.to_nat 2) ranking)
         /\ length results = Nat.min (Z.to_nat 2) (length chunks)).
Proof.
  assert (chunks <> []) as H1 by discriminate.
  assert (length embeddings = length chunks) as H2 by reflexivity.
  assert (1 <= 2)%Z as H3 by lia.
  assert (Forall (fun e => length e = length (embed query)
                           /\ is_dnan (sim (embed query) e) = false)
                 embeddings)
    as H4 by (repeat constructor).
  split; [exact H1|]. split; [exact H2|]. split; [exact H3|].
  split; [exact H4|].
  exact (@semantic_search_ranked embed query chunks embeddings 2 H1 H2 H3 H4).
Defined.

(** C7 on the empty corpus and on the sample corpus with [k = 5]. *)
Lemma semantic_search_small_corpus_witness :
  (SimpleRag.semantic_search embed query [] [] 5 = Ok []
   /\ SemanticChunking.semantic_search embed query [] [] 5 = Ok [])
  /\ length embeddings = length chunks
  /\ Forall (fun e => length e = length (embed query)) embeddings
  /\ (0 < Z.of_nat (length chunks) < 5)%Z
  /\ (exists results,
         SimpleRag.semantic_search embed query chunks embeddings 5
         = Ok results
         /\ length results = length chunks)
  /\ (exists results,
         SemanticChunking.semantic_search embed query chunks embeddings 5
         = Ok results
         /\ length results = length chunks).
Proof.
  assert (length embeddings = length chunks) as H1 by reflexivity.
  assert (Forall (fun e => length e = length (embed query)) embeddings)
    as H2 by (repeat constructor).
  assert (0 < Z.of_nat (length chunks) < 5)%Z as H3 by (simpl; lia).
  split; [exact (proj1 semantic_search_small_corpus embed query 5%Z)|].
  split; [exact H1|]. split; [exact H2|]. split; [exact H3|].
  exact (proj2 semantic_search_small_corpus embed query chunks embeddings 5%Z H1 H2 H3).
Defined.

End RetrieverWitnesses.

(** ** Retriever with chunk headers (notebook 05) *)

Import ChunkHeaders.

Section HeaderSearch.

Variable q : vec.

(** On chunks whose two embeddings have the query's dimension, the scoring
    loop pairs every chunk with the average of its two similarities. *)
Lemma mapM_header_scores (chunks : list chunk) :
  Forall (fun c => length (embedding c) = length q
                   /\ length (header_embedding c) = length q)
         chunks ->
  mapM (fun chunk =>
          sim_text <- cosine_similarity q (embedding chunk) ;;
          sim_header <- cosine_similarity q (header_embedding chunk) ;;
          Ok (chunk, ddiv (dadd sim_text sim_header) (of_Z 2)))
       chunks
  = Ok (map (fun c => (c, avg_score q c)) chunks).
Proof.
  induction 1 as [|c l [Hl Hl'] _ IH]; [reflexivity|].
  cbn [mapM map]. rewrite IH.
  rewrite !cosine_similarity_sim by auto. reflexivity.
Qed.


End HeaderSearch.

Section HeaderClaims.



End HeaderClaims.

Section HeaderWitness.
Import Sample.


End HeaderWitness.

(** ** Further checks of the model against the specification's test list *)

Example range_forward : range 0 10 3 = Ok [0; 3; 6; 9]%Z.
Proof. reflexivity. Qed.

Example range_backward : range 10 0 (-3) = Ok [10; 7; 4; 1]%Z.
Proof. reflexivity. Qed.

Example range_zero_step : range 0 10 0 = Raise ValueError.
Proof. reflexivity. Qed.

Example slice_negative_stop : slice (s "abcdef") 1 (-1) = s "bcde".
Proof. reflexivity. Qed.

Example slice_from_negative : slice_from [1; 2; 3; 4; 5]%Z (-2) = [4; 5]%Z.
Proof. reflexivity. Qed.

Example getitem_negative : getitem [10; 20; 30]%Z (-1) = Ok 30%Z.
Proof. reflexivity. Qed.

Example getitem_out_of_range : getitem [10; 20; 30]%Z 3 = Raise IndexError.
Proof. reflexivity. Qed.

Example join_sentences : join (s ". ") (map s ["A"; "B"; "C"]) = s "A. B. C".
Proof. reflexivity. Qed.

Section SpecificationChecks.
Local Open Scope R_scope.

(** Any other method name raises. *)
Example compute_breakpoints_invalid_method :
  compute_breakpoints [0.9; 0.2] (s "median") 50 = Raise ValueError.
Proof. reflexivity. Qed.

Lemma filter_none {A} (f : A -> bool) (l : list A) :
  Forall (fun x => f x = false) l -> filter f l = [].
Proof.
  induction 1 as [|x l Hx _ IH]; simpl; [reflexivity|]. now rewrite Hx.
Qed.

(** [np.sort] puts a least element first. *)
Lemma sort_head_least (a : list R) (x : R) :
  In x a -> nth 0 (sort a) 0 <= x.
Proof.
  intros Hin. unfold sort.
  assert (StronglySorted (ranked Rltb (fun _ _ => True)) (sort_by Rltb a)) as Hs.
  { apply sort_by_sorted with (ok := fun _ => True).
    - intros u w _ _. rewrite Rltb_true, Rltb_false. lra.
    - intros u w z _ _ _. rewrite !Rltb_false. lra.
    - apply Forall_forall; auto.
    - clear. induction a; constructor; auto. apply Forall_forall; auto. }
  apply (Permutation_in _ (Permutation_sym (sort_by_perm Rltb a))) in Hin.
  destruct (sort_by Rltb a) as [|y l]; [contradiction|]. simpl.
  destruct Hin as [->|Hin]; [lra|].
  inversion Hs as [|? ? _ Hy]; subst. rewrite Forall_forall in Hy.
  destruct (Hy x Hin) as [H _]. now apply Rltb_false in H.
Qed.

(** The 0th percentile is the minimum, so threshold 0 gives no breakpoint. *)
Lemma compute_breakpoints_percentile_zero (similarities : list R) :
  similarities <> [] ->
  compute_breakpoints similarities (s "percentile") 0 = Ok [].
Proof.
  intros Hne. unfold compute_breakpoints.
  cbn [s list_ascii_of_string str_eqb Ascii.eqb Bool.eqb andb].
  unfold percentile. Rcompare. cbn [andb].
  destruct similarities as [|x0 l] eqn:E; [contradiction|]. rewrite <- E.
  replace (INR (length similarities - 1) * (0 / 100)) with (IZR 0) by lra.
  rewrite ZfloorZ. change (Z.to_nat 0) with 0%nat. cbn [INR bind].
  f_equal. rewrite filter_none; [reflexivity|].
  apply Forall_forall. intros p Hp.
  apply enumerate_in, nth_error_In in Hp.
  cbn [flt]. apply Rltb_false.
  pose proof (sort_head_least _ _ Hp). lra.
Qed.

End SpecificationChecks.

(* ================================================================= *)
(** * Part III: further properties of the notebooks' code *)
(* ================================================================= *)

(** ** Splitting into sentences and stripping *)

Example split_sentences :
  split (s "A. B. C. D.") (s ". ") = Ok (map s ["A"; "B"; "C"; "D."]).
Proof. reflexivity. Qed.

Example split_adjacent_separators :
  split (s "a. . b.  c") (s ". ") = Ok (map s ["a"; ""; "b"; " c"]).
Proof. reflexivity. Qed.

Example split_no_overlap : split (s "aaa") (s "aa") = Ok (map s [""; "a"]).
Proof. reflexivity. Qed.

Example split_empty_text : split (s "") (s ". ") = Ok [s ""].
Proof. reflexivity. Qed.

Example strip_blanks :
  strip ([" "; "009"]%char ++ s "a b" ++ ["010"; " "]%char) = s "a b".
Proof. reflexivity. Qed.

Section SplitFacts.

Lemma starts_with_app (prefix text : str) :
  starts_with prefix text = true <-> exists rest, text = prefix ++ rest.
Proof.
  revert text; induction prefix as [|p prefix IH]; intros text; simpl.
  - split; [intros _; now exists text|reflexivity].
  - destruct text as [|c text].
    + split; [discriminate|]. intros [rest H]. discriminate.
    + rewrite andb_true_iff, Ascii.eqb_eq, IH. split.
      * intros [-> [rest ->]]. now exists rest.
      * intros [rest H]. injection H as -> ->. split; [reflexivity|now exists rest].
Qed.

Lemma split_scan_nonempty (sep : str) (skip : nat) (text : str) :
  split_scan sep skip text <> [].
Proof.
  revert skip; induction text as [|c text IH]; intros skip; simpl;
    [discriminate|].
  destruct skip; [|apply IH].
  destruct (starts_with sep (c :: text)); [discriminate|].
  destruct (split_scan sep 0 text); discriminate.
Qed.

(** Passing the rest of a found separator. *)
Lemma split_scan_skip (sep passed text : str) :
  split_scan sep (length passed) (passed ++ text) = split_scan sep 0 text.
Proof. induction passed as [|c passed IH]; simpl; [reflexivity|exact IH]. Qed.

Lemma join_cons_head (sep : str) (c : ascii) (piece : str) (pieces : list str) :
  join sep ((c :: piece) :: pieces) = c :: join sep (piece :: pieces).
Proof. destruct pieces; reflexivity. Qed.

Lemma join_cons (sep piece : str) (pieces : list str) :
  pieces <> [] -> join sep (piece :: pieces) = piece ++ sep ++ join sep pieces.
Proof. destruct pieces; [contradiction|reflexivity]. Qed.

Lemma join_app (sep : str) (a b : list str) :
  a <> [] -> b <> [] -> join sep (a ++ b) = join sep a ++ sep ++ join sep b.
Proof.
  intros Ha Hb. induction a as [|x a IH]; [contradiction|].
  destruct a as [|y a].
  - simpl app. now rewrite join_cons.
  - change ((x :: y :: a) ++ b) with (x :: ((y :: a) ++ b)).
    rewrite join_cons by discriminate.
    rewrite IH by discriminate.
    rewrite (@join_cons sep x (y :: a)) by discriminate.
    now rewrite <- !app_assoc.
Qed.

Lemma split_scan_join (sep : str) (n : nat) (text : str) :
  sep <> [] -> (length text <= n)%nat -> join sep (split_scan sep 0 text) = text.
Proof.
  intros Hsep. revert text; induction n as [|n IH]; intros text Hlen.
  - destruct text; [reflexivity|simpl in Hlen; lia].
  - destruct text as [|c text]; [reflexivity|].
    cbn [split_scan].
    destruct (starts_with sep (c :: text)) eqn:E.
    + apply starts_with_app in E. destruct E as [rest E].
      destruct sep as [|p sep]; [contradiction|].
      injection E as <- ->.
      replace (length (c :: sep) - 1)%nat with (length sep) by (simpl; lia).
      rewrite split_scan_skip.
      rewrite join_cons by apply split_scan_nonempty.
      rewrite IH; [reflexivity|].
      simpl in Hlen. rewrite length_app in Hlen. lia.
    + pose proof (@split_scan_nonempty sep 0 text) as Hne.
      destruct (split_scan sep 0 text) as [|piece pieces] eqn:Es;
        [contradiction|].
      rewrite join_cons_head, <- Es, IH; [reflexivity|].
      simpl in Hlen. lia.
Qed.

End SplitFacts.

Lemma split_join_roundtrip_sentences (text : str) (pieces : list str) :
  SemanticCells.sentences text = Ok pieces ->
  pieces <> [] /\ join (s ". ") pieces = text.
Proof.
  unfold SemanticCells.sentences, split. cbn [s list_ascii_of_string].
  intros H; injection H as <-. split.
  - apply split_scan_nonempty.
  - apply split_scan_join with (n := length text); [discriminate|lia].
Qed.

(** X1.  Joining the pieces of [text.split(sep)] with [sep] gives the text
    back, and there is always at least one piece. *)
Theorem split_join_roundtrip (text sep : str) (pieces : list str) :
  split text sep = Ok pieces -> pieces <> [] /\ join sep pieces = text.
Proof.
  unfold split. destruct sep as [|p sep']; [discriminate|].
  intros H; injection H as <-. split.
  - apply split_scan_nonempty.
  - apply split_scan_join with (n := length text); [discriminate|lia].
Qed.

Lemma split_join_roundtrip_witness :
  split (s "A. B. C. D.") (s ". ") = Ok (map s ["A"; "B"; "C"; "D."])
  /\ map s ["A"; "B"; "C"; "D."] <> []
  /\ join (s ". ") (map s ["A"; "B"; "C"; "D."]) = s "A. B. C. D.".
Proof.
  split; [reflexivity|].
  exact (@split_join_roundtrip (s "A. B. C. D.") (s ". ") _ eq_refl).
Defined.

(** ** Boundary selector: every method *)

Section BoundaryMethods.
Local Open Scope R_scope.

(** Whatever the method, a result is the list of the indices whose
    similarity is below one threshold value. *)
Lemma compute_breakpoints_filter (similarities : list R) (method : str)
      (threshold : R) (breakpoints : list nat) :
  compute_breakpoints similarities method threshold = Ok breakpoints ->
  exists threshold_value : float64,
    breakpoints
    = map fst (filter (fun p => flt (Fin (snd p)) threshold_value)
                      (enumerate similarities)).
Proof.
  unfold compute_breakpoints.
  match goal with
  | |- bind ?m _ = _ -> _ => destruct m as [thr|e]
  end; cbn [bind]; [|discriminate].
  intros H; injection H as <-. now exists thr.
Qed.

Lemma str_eqb_eq (a b : str) : str_eqb a b = true <-> a = b.
Proof.
  revert b; induction a as [|x a IH]; intros [|y b]; simpl;
    try (split; [discriminate|discriminate]); [split; reflexivity|].
  rewrite andb_true_iff, Ascii.eqb_eq, IH.
  split; [intros [-> ->]; reflexivity|intros H; injection H; auto].
Qed.

End BoundaryMethods.

(** X2.  Whichever method is chosen, the breakpoints [compute_breakpoints]
    returns are strictly ascending indices into [similarities]. *)
Theorem compute_breakpoints_ascending_in_range
        (similarities : list R) (method : str) (threshold : R)
        (breakpoints : list nat) :
  compute_breakpoints similarities method threshold = Ok breakpoints ->
  StronglySorted lt breakpoints
  /\ Forall (fun i => (i < length similarities)%nat) breakpoints.
Proof.
  intros H. apply compute_breakpoints_filter in H. destruct H as [thr ->].
  unfold enumerate. split.
  - apply (filter_enumerate_sorted (fun x => flt (Fin x) thr) similarities 0).
  - apply Forall_forall. intros i Hi.
    apply (filter_enumerate_in (fun x => flt (Fin x) thr) similarities 0 i) in Hi.
    destruct Hi as (x & _ & Hn & _). rewrite Nat.sub_0_r in Hn.
    apply nth_error_Some. congruence.
Qed.

Lemma compute_breakpoints_ascending_in_range_witness :
  compute_breakpoints [0.9; 0.95; 0.2; 0.92]%R (s "percentile") 50
  = Ok [0%nat; 2%nat]
  /\ StronglySorted lt [0%nat; 2%nat]
  /\ Forall (fun i => (i < length [0.9; 0.95; 0.2; 0.92]%R)%nat) [0%nat; 2%nat].
Proof.
  split; [exact compute_breakpoints_scenario|].
  exact (@compute_breakpoints_ascending_in_range
           _ _ _ _ compute_breakpoints_scenario).
Defined.

(** ** Semantic chunking keeps the text *)

Section RejoinFacts.
Context {A : Type}.

Lemma runs_nonempty (units : list A) (bps : list nat) (start : nat) :
  StronglySorted lt bps -> Forall (le start) bps ->
  Forall (fun b => (b < length units)%nat) bps ->
  Forall (fun run => run <> []) (runs units bps start).
Proof.
  intros Hs; revert start.
  induction Hs as [|b bps Hs IH Hb]; intros start Hge Hlt; cbn [runs];
    constructor.
  - inversion Hge; inversion Hlt; subst.
    intros E. apply (f_equal (@length _)) in E.
    rewrite length_firstn, length_skipn in E. cbn [length] in E. lia.
  - inversion Hlt; subst. apply IH; [|assumption].
    eapply Forall_impl; [|exact Hb]. simpl; intros; lia.
Qed.

Lemma rest_start_bound (bps : list nat) (start n : nat) :
  Forall (fun b => (S b < n)%nat) bps -> (start < n)%nat ->
  (rest_start bps start < n)%nat.
Proof.
  intros H; revert start.
  induction H as [|b bps Hb _ IH]; intros start Hs; simpl; auto.
Qed.

End RejoinFacts.

(** Chunks that end in ["."] and are joined with [" "] read like their runs
    joined with [". "]. *)
Lemma join_chunks (rs : list (list str)) (final : list str) :
  Forall (fun run => run <> []) rs -> final <> [] ->
  join (s " ") (map (fun run => join (s ". ") run ++ s ".") rs
                ++ [join (s ". ") final])
  = join (s ". ") (concat rs ++ final).
Proof.
  intros Hrs Hf. induction Hrs as [|r rs Hr _ IH]; [reflexivity|].
  cbn [map concat app].
  rewrite join_cons by (destruct rs; discriminate).
  rewrite IH, <- (app_assoc r).
  rewrite (@join_app (s ". ") r (concat rs ++ final)); auto.
  - now rewrite <- app_assoc.
  - destruct (concat rs); [assumption|discriminate].
Qed.

Lemma split_into_chunks_rejoin (units : list str) (bps : list nat) :
  StronglySorted lt bps ->
  Forall (fun b => (S b < length units)%nat) bps ->
  units <> [] ->
  join (s " ") (split_into_chunks units (map Z.of_nat bps))
  = join (s ". ") units.
Proof.
  intros Hs Hlt Hne.
  assert (Forall (le 0) bps) as Hge by (apply Forall_forall; intros; lia).
  assert (Forall (fun b => (b < length units)%nat) bps) as Hlt'
      by (eapply Forall_impl; [|exact Hlt]; simpl; intros; lia).
  rewrite split_into_chunks_runs, join_chunks.
  - now rewrite runs_cover.
  - now apply runs_nonempty.
  - assert (rest_start bps 0 < length units)%nat as Hr.
    { apply rest_start_bound; [assumption|].
      destruct units; [contradiction|simpl; lia]. }
    intros E. apply (f_equal (@length _)) in E.
    rewrite length_skipn in E. simpl in E. lia.
Qed.

(** X3.  Semantic chunking loses nothing: when the text is split into
    sentences at [". "], one similarity is given per pair of neighbouring
    sentences and the breakpoints come from [compute_breakpoints] (any
    method), the chunks of [split_into_chunks] joined with single spaces are
    the text again. *)
Theorem semantic_chunks_rejoin
        (extracted_text : str) (sentences : list str) (similarities : list R)
        (method : str) (threshold : R) (breakpoints : list nat) :
  SemanticCells.sentences extracted_text = Ok sentences ->
  (length similarities + 1 = length sentences)%nat ->
  compute_breakpoints similarities method threshold = Ok breakpoints ->
  join (s " ") (split_into_chunks sentences (map Z.of_nat breakpoints))
  = extracted_text.
Proof.
  intros Hsplit Hlen Hbp.
  apply split_join_roundtrip_sentences in Hsplit.
  destruct Hsplit as [Hne Hjoin].
  apply compute_breakpoints_filter in Hbp. destruct Hbp as [thr ->].
  rewrite split_into_chunks_rejoin; [exact Hjoin| | |exact Hne].
  - apply (filter_enumerate_sorted (fun x => flt (Fin x) thr) similarities 0).
  - apply Forall_forall. intros i Hi.
    apply (filter_enumerate_in (fun x => flt (Fin x) thr) similarities 0 i) in Hi.
    destruct Hi as (x & _ & Hn & _). rewrite Nat.sub_0_r in Hn.
    assert (i < length similarities)%nat by (apply nth_error_Some; congruence).
    lia.
Qed.

Section RejoinWitness.
Local Open Scope R_scope.

Lemma compute_breakpoints_three :
  compute_breakpoints [0.9; 0.2; 0.95] (s "percentile") 50 = Ok [1%nat].
Proof.
  unfold compute_breakpoints.
  cbn [s list_ascii_of_string str_eqb Ascii.eqb Bool.eqb andb].
  unfold percentile. Rcompare. cbn [andb].
  unfold sort, sort_by. cbn [fold_right insert_by]. Rcompare.
  cbn [insert_by]. Rcompare.
  cbn [length Nat.sub INR].
  rewrite (Zfloor_eq 1) by (simpl; lra).
  change (Z.to_nat 1) with 1%nat. cbn [Nat.add Nat.min nth INR].
  cbn [bind enumerate length seq combine filter snd flt].
  Rcompare. reflexivity.
Qed.

(** X3 on ["A. B. C. D."] with similarities 0.9, 0.2 and 0.95. *)
Lemma semantic_chunks_rejoin_witness :
  SemanticCells.sentences (s "A. B. C. D.") = Ok (map s ["A"; "B"; "C"; "D."])
  /\ (length [0.9; 0.2; 0.95]%R + 1 = length (map s ["A"; "B"; "C"; "D."]))%nat
  /\ compute_breakpoints [0.9; 0.2; 0.95] (s "percentile") 50 = Ok [1%nat]
  /\ join (s " ")
          (split_into_chunks (map s ["A"; "B"; "C"; "D."]) (map Z.of_nat [1%nat]))
     = s "A. B. C. D.".
Proof.
  split; [reflexivity|]. split; [reflexivity|].
  split; [exact compute_breakpoints_three|].
  exact (@semantic_chunks_rejoin (s "A. B. C. D.") _ [0.9; 0.2; 0.95]
           (s "percentile") 50 [1%nat] eq_refl eq_refl
           compute_breakpoints_three).
Defined.

End RejoinWitness.

(** ** Boundary selector: failures, bounds and constant input *)

Section BoundaryEdges.
Local Open Scope R_scope.

Lemma percentile_out_of_range (a : list R) (q : R) :
  ~ (0 <= q <= 100) -> percentile a q = Raise ValueError.
Proof.
  intros H. unfold percentile.
  destruct (Rle_dec 0 q) as [H0|H0]; destruct (Rle_dec q 100) as [H1|H1];
    try (exfalso; apply H; split; assumption);
    unfold Rleb;
    repeat match goal with
      | |- context [Rle_dec ?x ?y] => destruct (Rle_dec x y); try contradiction
      end; reflexivity.
Qed.

Lemma percentile_in_range (a : list R) (q : R) :
  a <> [] -> 0 <= q <= 100 -> exists v, percentile a q = Ok v.
Proof.
  intros Ha [H0 H1]. unfold percentile.
  rewrite (proj2 (Rleb_true 0 q)), (proj2 (Rleb_true q 100)) by assumption.
  destruct a; [contradiction|]. eexists; reflexivity.
Qed.

Lemma percentile_empty (q : R) :
  0 <= q <= 100 -> percentile [] q = Raise IndexError.
Proof.
  intros [H0 H1]. unfold percentile.
  now rewrite (proj2 (Rleb_true 0 q)), (proj2 (Rleb_true q 100)) by assumption.
Qed.

Lemma nth_In_default (l : list R) (i : nat) :
  (i < length l)%nat -> In (nth i l 0) l.
Proof. intros H. now apply nth_In. Qed.

(** The percentile is a mean of two elements of the list, so it lies within
    any bounds of the list. *)
Lemma percentile_between (a : list R) (q lo hi : R) :
  a <> [] -> 0 <= q <= 100 ->
  (forall y, In y a -> lo <= y <= hi) ->
  exists p, percentile a q = Ok (Fin p) /\ lo <= p <= hi.
Proof.
  intros Ha [H0 H1] Hb. unfold percentile.
  rewrite (proj2 (Rleb_true 0 q)), (proj2 (Rleb_true q 100)) by assumption.
  destruct a as [|x0 a0] eqn:Ea; [contradiction|]. rewrite <- Ea in *.
  cbn [andb]. eexists; split; [reflexivity|].
  set (n := length a).
  assert (0 < n)%nat as Hn by (subst n; rewrite Ea; simpl; lia).
  set (v := INR (n - 1) * (q / 100)).
  assert (0 <= INR (n - 1)) as Hpos by apply pos_INR.
  assert (0 <= v <= INR (n - 1)) as [Hv0 Hv1] by (subst v; split; nra).
  pose proof (Zfloor_bound v) as [Hf0 Hf1].
  assert (0 <= Zfloor v)%Z as Hz0
      by (apply (Zfloor_lub 0 v); simpl; lra).
  assert (Zfloor v <= Z.of_nat (n - 1))%Z as Hz1.
  { apply le_IZR. rewrite <- INR_IZR_INZ. lra. }
  set (prev := Z.to_nat (Zfloor v)).
  assert (INR prev = IZR (Zfloor v)) as Hprev
      by (subst prev; rewrite INR_IZR_INZ, Z2Nat.id by assumption; reflexivity).
  assert (prev < n)%nat as Hpn by (subst prev; lia).
  assert (Nat.min (prev + 1) (n - 1) < n)%nat as Hnn by lia.
  assert (forall i, (i < n)%nat -> lo <= nth i (sort a) 0 <= hi) as Hin.
  { intros i Hi. apply Hb.
    apply (Permutation_in _ (sort_by_perm Rltb a)).
    apply nth_In_default. unfold sort. rewrite sort_by_length. exact Hi. }
  destruct (Hin prev Hpn) as [Ha0 Ha1].
  destruct (Hin _ Hnn) as [Hb0 Hb1].
  rewrite Hprev.
  set (g := v - IZR (Zfloor v)) in *.
  assert (0 <= g <= 1) as [Hg0 Hg1] by (subst g; lra).
  split; nra.
Qed.

(** No element of a constant list is below a threshold equal to the
    constant. *)
Lemma filter_const (l : list R) (c : R) (start : nat) (thr : R) :
  Forall (eq c) l -> thr <= c ->
  map fst (filter (fun p => flt (Fin (snd p)) (Fin thr))
                  (combine (seq start (length l)) l))
  = [].
Proof.
  intros Hc Hthr. rewrite filter_none; [reflexivity|].
  apply Forall_forall. intros p Hp.
  apply enumerate_from_in, proj2, nth_error_In in Hp.
  rewrite Forall_forall in Hc. rewrite <- (Hc _ Hp).
  cbn [flt]. now apply Rltb_false.
Qed.

End BoundaryEdges.

Section BoundaryExtras.
Local Open Scope R_scope.

(** X4.  The failures of [compute_breakpoints].  A method that is none of
    the three names raises [ValueError], whatever the list.  The standard
    deviation method never fails, the empty list included.  The interquartile
    method, and the percentile method with a threshold in [0, 100], fail on
    the empty list and only there, with the [IndexError] of [np.percentile].
    The percentile method with a threshold above 100 or not above -1 raises
    [ValueError], also on the empty list.  (numpy tests [threshold / 100],
    which rounds to [-0.0] for the smallest negative doubles: thresholds
    between -1 and 0 are left out.) *)
Theorem compute_breakpoints_failure (similarities : list R) (threshold : R) :
  (forall method,
      method <> s "percentile" ->
      method <> s "standard_deviation" ->
      method <> s "interquartile" ->
      compute_breakpoints similarities method threshold = Raise ValueError)
  /\ (exists breakpoints,
         compute_breakpoints similarities (s "standard_deviation") threshold
         = Ok breakpoints)
  /\ (similarities = [] ->
      compute_breakpoints similarities (s "interquartile") threshold
      = Raise IndexError)
  /\ (similarities <> [] ->
      exists breakpoints,
        compute_breakpoints similarities (s "interquartile") threshold
        = Ok breakpoints)
  /\ (0 <= threshold <= 100 ->
      (similarities = [] ->
       compute_breakpoints similarities (s "percentile") threshold
       = Raise IndexError)
      /\ (similarities <> [] ->
          exists breakpoints,
            compute_breakpoints similarities (s "percentile") threshold
            = Ok breakpoints))
  /\ (threshold <= -1 \/ 100 < threshold ->
      compute_breakpoints similarities (s "percentile") threshold
      = Raise ValueError).
Proof.
  split; [|split; [|split; [|split; [|split]]]].
  - intros method N1 N2 N3. unfold compute_breakpoints.
    destruct (str_eqb method (s "percentile")) eqn:E1;
      [apply str_eqb_eq in E1; contradiction|].
    destruct (str_eqb method (s "standard_deviation")) eqn:E2;
      [apply str_eqb_eq in E2; contradiction|].
    destruct (str_eqb method (s "interquartile")) eqn:E3;
      [apply str_eqb_eq in E3; contradiction|].
    reflexivity.
  - unfold compute_breakpoints.
    cbn [s list_ascii_of_string str_eqb Ascii.eqb Bool.eqb andb bind].
    eexists. reflexivity.
  - intros ->. unfold compute_breakpoints.
    cbn [s list_ascii_of_string str_eqb Ascii.eqb Bool.eqb andb].
    now rewrite percentile_empty by lra.
  - intros Hne. unfold compute_breakpoints.
    cbn [s list_ascii_of_string str_eqb Ascii.eqb Bool.eqb andb].
    destruct (@percentile_in_range similarities 25 Hne ltac:(lra)) as [q1 ->].
    destruct (@percentile_in_range similarities 75 Hne ltac:(lra)) as [q3 ->].
    cbn [bind]. eexists. reflexivity.
  - intros Ht. split.
    + intros ->. unfold compute_breakpoints.
      cbn [s list_ascii_of_string str_eqb Ascii.eqb Bool.eqb andb].
      now rewrite percentile_empty.
    + intros Hne. unfold compute_breakpoints.
      cbn [s list_ascii_of_string str_eqb Ascii.eqb Bool.eqb andb].
      destruct (@percentile_in_range similarities threshold Hne Ht) as [v ->].
      cbn [bind]. eexists. reflexivity.
  - intros Ht. unfold compute_breakpoints.
    cbn [s list_ascii_of_string str_eqb Ascii.eqb Bool.eqb andb].
    now rewrite percentile_out_of_range by lra.
Qed.

(** X5.  On a non-empty list of similarities that are all equal, the
    percentile method (with a threshold in [0, 100]) and the interquartile
    method find no breakpoint: their threshold value is the common value
    itself, and the text stays one chunk. *)
Theorem compute_breakpoints_constant
        (similarities : list R) (c : R) (method : str) (threshold : R) :
  similarities <> [] ->
  Forall (eq c) similarities ->
  (method = s "percentile" /\ 0 <= threshold <= 100)
  \/ method = s "interquartile" ->
  compute_breakpoints similarities method threshold = Ok [].
Proof.
  intros Hne Hc Hm.
  assert (forall y, In y similarities -> c <= y <= c) as Hb
      by (rewrite Forall_forall in Hc; intros y Hy; rewrite <- (Hc y Hy); lra).
  destruct Hm as [[-> Ht]| ->]; unfold compute_breakpoints;
    cbn [s list_ascii_of_string str_eqb Ascii.eqb Bool.eqb andb].
  - destruct (percentile_between Hne Ht Hb) as (p & -> & Hp).
    cbn [bind]. unfold enumerate. rewrite (@filter_const _ c); [reflexivity|
      assumption|lra].
  - destruct (@percentile_between similarities 25 c c Hne ltac:(lra) Hb)
      as (q1 & -> & Hq1).
    destruct (@percentile_between similarities 75 c c Hne ltac:(lra) Hb)
      as (q3 & -> & Hq3).
    cbn [bind fmul fneg fsub fadd]. unfold enumerate.
    rewrite (@filter_const _ c); [reflexivity|assumption|lra].
Qed.

(** X5 on three equal similarities with the interquartile method. *)
Lemma compute_breakpoints_constant_witness :
  [0.5; 0.5; 0.5] <> []
  /\ Forall (eq 0.5) [0.5; 0.5; 0.5]
  /\ compute_breakpoints [0.5; 0.5; 0.5] (s "interquartile") 1 = Ok [].
Proof.
  assert ([0.5; 0.5; 0.5] <> []) as Hne by discriminate.
  assert (Forall (eq 0.5) [0.5; 0.5; 0.5]) as H by (repeat constructor).
  split; [exact Hne|]. split; [exact H|].
  exact (@compute_breakpoints_constant [0.5; 0.5; 0.5] 0.5
           (s "interquartile") 1 Hne H (or_intror eq_refl)).
Defined.




Lemma StronglySorted_nth {A} (R : A -> A -> Prop) (l : list A) (d : A)
      (i j : nat) :
  StronglySorted R l -> (i < j < length l)%nat -> R (nth i l d) (nth j l d).
Proof.
  intros Hs; revert i j.
  induction Hs as [|x l Hs IH Hx]; intros i j [Hij Hj]; simpl in Hj; [lia|].
  destruct j as [|j]; [lia|]. destruct i as [|i]; simpl.
  - rewrite Forall_forall in Hx. apply Hx, nth_In. lia.
  - apply IH. lia.
Qed.

(** [np.sort] puts a greatest element last. *)
Lemma sort_last_greatest (a : list R) (x : R) :
  In x a -> x <= nth (length a - 1) (sort a) 0.
Proof.
  intros Hin. unfold sort.
  assert (StronglySorted (ranked Rltb (fun _ _ => True)) (sort_by Rltb a)) as Hs.
  { apply sort_by_sorted with (ok := fun _ => True).
    - intros u w _ _. rewrite Rltb_true, Rltb_false. lra.
    - intros u w z _ _ _. rewrite !Rltb_false. lra.
    - apply Forall_forall; auto.
    - clear. induction a; constructor; auto. apply Forall_forall; auto. }
  apply (Permutation_in _ (Permutation_sym (sort_by_perm Rltb a))) in Hin.
  destruct (In_nth _ _ 0 Hin) as (i & Hi & <-).
  rewrite sort_by_length in Hi.
  destruct (Nat.eq_dec i (length a - 1)) as [->|Hne]; [lra|].
  destruct (@StronglySorted_nth _ _ (sort_by Rltb a) 0 i (length a - 1) Hs)
    as [H _]; [rewrite sort_by_length; lia|].
  now apply Rltb_false in H.
Qed.

(** X7.  The extreme thresholds of the percentile method on a non-empty
    list: threshold 0 (the minimum) gives no breakpoint at all, and
    threshold 100 (the maximum) gives every index whose similarity is not a
    largest one. *)
Theorem compute_breakpoints_percentile_extremes (similarities : list R) :
  similarities <> [] ->
  compute_breakpoints similarities (s "percentile") 0 = Ok []
  /\ exists breakpoints,
      compute_breakpoints similarities (s "percentile") 100 = Ok breakpoints
      /\ forall i,
          In i breakpoints
          <-> exists x y,
              nth_error similarities i = Some x /\ In y similarities /\ x < y.
Proof.
  intros Hne. split; [now apply compute_breakpoints_percentile_zero|].
  unfold compute_breakpoints.
  cbn [s list_ascii_of_string str_eqb Ascii.eqb Bool.eqb andb].
  unfold percentile. Rcompare. cbn [andb].
  destruct similarities as [|x0 l] eqn:E; [contradiction|]. rewrite <- E in *.
  set (n := length similarities).
  assert (0 < n)%nat as Hn by (subst n; rewrite E; simpl; lia).
  replace (INR (n - 1) * (100 / 100)) with (IZR (Z.of_nat (n - 1)))
    by (rewrite <- INR_IZR_INZ; lra).
  rewrite ZfloorZ, Nat2Z.id.
  replace (Nat.min (n - 1 + 1) (n - 1)) with (n - 1)%nat by lia.
  cbn [bind]. eexists; split; [reflexivity|]. intros i. unfold enumerate.
  rewrite (filter_enumerate_in
             (fun y => flt (Fin y) (Fin (nth (n - 1) (sort similarities) 0
                                         + (nth (n - 1) (sort similarities) 0
                                            - nth (n - 1) (sort similarities) 0)
                                           * (IZR (Z.of_nat (n - 1))
                                              - INR (n - 1)))))
             similarities 0 i).
  rewrite Nat.sub_0_r. cbn [flt].
  set (m := nth (n - 1) (sort similarities) 0).
  assert (In m similarities) as Hm.
  { apply (Permutation_in _ (sort_by_perm Rltb similarities)).
    apply nth_In. unfold sort. rewrite sort_by_length. fold n. lia. }
  split.
  - intros (x & _ & Hx & Hlt). apply Rltb_true in Hlt.
    exists x, m. split; [assumption|]. split; [assumption|].
    rewrite <- INR_IZR_INZ in Hlt. lra.
  - intros (x & y & Hx & Hy & Hxy). exists x. split; [lia|].
    split; [assumption|]. apply Rltb_true.
    pose proof (sort_last_greatest _ _ Hy) as Hle. fold n m in Hle.
    rewrite <- INR_IZR_INZ. lra.
Qed.

(** X7 on the scenario's similarities. *)
Lemma compute_breakpoints_percentile_extremes_witness :
  [0.9; 0.95; 0.2; 0.92] <> []
  /\ compute_breakpoints [0.9; 0.95; 0.2; 0.92] (s "percentile") 0 = Ok []
  /\ exists breakpoints,
      compute_breakpoints [0.9; 0.95; 0.2; 0.92] (s "percentile") 100
      = Ok breakpoints
      /\ forall i,
          In i breakpoints
          <-> exists x y,
              nth_error [0.9; 0.95; 0.2; 0.92] i = Some x
              /\ In y [0.9; 0.95; 0.2; 0.92] /\ x < y.
Proof.
  assert ([0.9; 0.95; 0.2; 0.92] <> []) as H by discriminate.
  split; [exact H|].
  exact (@compute_breakpoints_percentile_extremes [0.9; 0.95; 0.2; 0.92] H).
Defined.

End BoundaryExtras.

(** ** Similarity engine: symmetry *)

Section SimilarityExtras.

Lemma dot_value_comm (v w : vec) : dot_value v w = dot_value w v.
Proof.
  unfold dot_value. generalize (of_Z 0). revert w.
  induction v as [|x v IH]; intros [|y w] acc; try reflexivity.
  cbn [combine fold_left fst snd]. rewrite (dmul_comm x y). apply IH.
Qed.

(** X8.  [cosine_similarity] is symmetric: swapping the two vectors gives
    the same value, or the same error. *)
Theorem cosine_similarity_symmetric (vec1 vec2 : vec) :
  cosine_similarity vec1 vec2 = cosine_similarity vec2 vec1.
Proof.
  unfold cosine_similarity, dot. rewrite (Nat.eqb_sym (length vec2)).
  destruct (length vec1 =? length vec2)%nat; [|reflexivity].
  cbn [bind].
  now rewrite (dot_value_comm vec1 vec2), (dmul_comm (norm vec1)).
Qed.

End SimilarityExtras.

(** ** Retrievers: edge cases and errors *)

Section RetrieverEdges.

Lemma mapM_raise {A B} (f : A -> result B) (e0 : exn) (l : list A) :
  (forall x, In x l -> (exists y, f x = Ok y) \/ f x = Raise e0) ->
  Exists (fun x => f x = Raise e0) l -> mapM f l = Raise e0.
Proof.
  intros Hall Hex. induction Hex as [x l Hx|x l Hex IH]; cbn [mapM].
  - now rewrite Hx.
  - destruct (Hall x (or_introl eq_refl)) as [[y ->]| ->]; [|reflexivity].
    cbn [bind]. rewrite IH; [reflexivity|].
    intros z Hz. apply Hall. now right.
Qed.

Lemma map_nth_seq {A} (l : list A) (d : A) :
  map (fun i => nth i l d) (seq 0 (length l)) = l.
Proof.
  induction l as [|x l IH]; [reflexivity|].
  cbn [length seq map nth]. f_equal.
  rewrite <- seq_shift, map_map. exact IH.
Qed.

Lemma cosine_similarity_cases (v w : vec) :
  (exists y, cosine_similarity v w = Ok y)
  \/ cosine_similarity v w = Raise ValueError.
Proof.
  destruct (Nat.eq_dec (length v) (length w)) as [E|E].
  - left. eexists. now apply cosine_similarity_sim.
  - right. now apply cosine_similarity_mismatch.
Qed.

Lemma getitem_cases {A} (l : list A) (i : Z) :
  (exists y, getitem l i = Ok y) \/ getitem l i = Raise IndexError.
Proof.
  unfold getitem.
  destruct (_ <? 0)%Z; [now right|].
  destruct (nth_error l _); [left; eexists; reflexivity|now right].
Qed.

Lemma getitem_out_of_range_nat {A} (l : list A) (i : nat) :
  (length l <= i)%nat -> getitem l (Z.of_nat i) = Raise IndexError.
Proof.
  intros H. unfold getitem.
  destruct (Z.ltb_spec (Z.of_nat i) 0); [lia|].
  destruct (Z.ltb_spec (Z.of_nat i) 0); [lia|].
  rewrite Nat2Z.id. now rewrite (proj2 (nth_error_None l i) H).
Qed.

Variable embed : str -> vec.
Variable query : str.
Variable text_chunks : list str.
Variable embeddings : list vec.

(** What the two retrievers look up once every similarity is computed. *)
Lemma simple_search_lookup (k : Z) :
  Forall (fun e => length e = length (embed query)) embeddings ->
  (0 <= k)%Z ->
  SimpleRag.semantic_search embed query text_chunks embeddings k
  = mapM (fun i => getitem text_chunks (Z.of_nat i))
         (firstn (Z.to_nat k)
                 (map fst (sort_by (fun y x : nat * double =>
                                      dlt (snd x) (snd y))
                                   (enumerate (map (sim (embed query))
                                                   embeddings))))).
Proof.
  intros Hdim Hk. unfold SimpleRag.semantic_search, enumerate.
  rewrite mapM_cosine_indexed by assumption. cbn [bind].
  rewrite slice_to_nonneg by assumption.
  now rewrite <- firstn_map, length_map.
Qed.

Lemma argsort_search_lookup (k : Z) :
  Forall (fun e => length e = length (embed query)) embeddings ->
  (1 <= k)%Z ->
  SemanticChunking.semantic_search embed query text_chunks embeddings k
  = mapM (fun i => getitem text_chunks (Z.of_nat i))
         (firstn (Z.to_nat k)
                 (rev (argsort (map (sim (embed query)) embeddings)))).
Proof.
  intros Hdim Hk. unfold SemanticChunking.semantic_search.
  rewrite mapM_cosine by assumption. cbn [bind].
  now rewrite rev_slice_from_neg.
Qed.

Lemma argsort_search_lookup_zero :
  Forall (fun e => length e = length (embed query)) embeddings ->
  SemanticChunking.semantic_search embed query text_chunks embeddings 0
  = mapM (fun i => getitem text_chunks (Z.of_nat i))
         (rev (argsort (map (sim (embed query)) embeddings))).
Proof.
  intros Hdim. unfold SemanticChunking.semantic_search.
  rewrite mapM_cosine by assumption. cbn [bind].
  change (- 0)%Z with 0%Z. now rewrite slice_from_nonneg.
Qed.

Lemma index_ranking_perm (before : nat * double -> nat * double -> bool) :
  Permutation
    (map fst (sort_by before (enumerate (map (sim (embed query)) embeddings))))
    (seq 0 (length embeddings)).
Proof.
  rewrite <- (length_map (sim (embed query)) embeddings).
  rewrite <- map_fst_enumerate.
  apply Permutation_map, sort_by_perm.
Qed.

Lemma argsort_perm :
  Permutation (rev (argsort (map (sim (embed query)) embeddings)))
              (seq 0 (length embeddings)).
Proof.
  rewrite <- Permutation_rev. apply index_ranking_perm.
Qed.

Lemma mapM_cosine_raise :
  Exists (fun e => length e <> length (embed query)) embeddings ->
  mapM (cosine_similarity (embed query)) embeddings = Raise ValueError.
Proof.
  intros Hex. apply mapM_raise.
  - intros e _. apply cosine_similarity_cases.
  - eapply Exists_impl; [|exact Hex]. simpl. intros e He.
    apply cosine_similarity_mismatch. congruence.
Qed.

Lemma mapM_cosine_indexed_raise {I} (ids : list I) :
  length ids = length embeddings ->
  Exists (fun e => length e <> length (embed query)) embeddings ->
  mapM (fun p => similarity_score <- cosine_similarity (embed query) (snd p) ;;
                 Ok (fst p, similarity_score))
       (combine ids embeddings)
  = Raise ValueError.
Proof.
  intros Hlen Hex. revert ids Hlen.
  induction Hex as [e l He|e l Hex IH]; intros [|i ids] Hlen;
    simpl in Hlen; try discriminate; cbn [combine mapM snd fst].
  - rewrite cosine_similarity_mismatch by congruence. reflexivity.
  - destruct (cosine_similarity_cases (embed query) e) as [[y ->]| ->];
      [|reflexivity].
    cbn [bind]. rewrite IH by lia. reflexivity.
Qed.

End RetrieverEdges.

Section RetrieverExtras.

Lemma NoDup_firstn {A} (n : nat) (l : list A) : NoDup l -> NoDup (firstn n l).
Proof.
  intros H. rewrite <- (firstn_skipn n l) in H.
  now apply NoDup_app_remove_r in H.
Qed.

(** The first [k] entries of a ranking of all positions of the corpus. *)
Lemma ranking_prefix (text_chunks : list str) (ranking : list nat) (k : Z) :
  Permutation ranking (seq 0 (length text_chunks)) ->
  NoDup (firstn (Z.to_nat k) ranking)
  /\ Forall (fun i => (i < length text_chunks)%nat) (firstn (Z.to_nat k) ranking)
  /\ length (firstn (Z.to_nat k) ranking)
     = Nat.min (Z.to_nat k) (length text_chunks)
  /\ ((Z.of_nat (length text_chunks) <= k)%Z ->
      Permutation (map (fun i => nth i text_chunks [])
                       (firstn (Z.to_nat k) ranking))
                  text_chunks).
Proof.
  intros Hp. split; [|split; [|split]].
  - apply NoDup_firstn.
    apply (Permutation_NoDup (Permutation_sym Hp)), seq_NoDup.
  - apply Forall_forall. intros i Hi.
    assert (In i ranking) as Hin
        by (rewrite <- (firstn_skipn (Z.to_nat k) ranking);
            apply in_or_app; now left).
    apply (Permutation_in _ Hp), in_seq in Hin. lia.
  - now rewrite length_firstn, (Permutation_length Hp), length_seq.
  - intros Hk. rewrite firstn_all2
      by (rewrite (Permutation_length Hp), length_seq; lia).
    rewrite (Permutation_map _ Hp). now rewrite map_nth_seq.
Qed.

(** X11.  With [k = 0] the two retrievers disagree: notebook 01 returns
    nothing, while the argsort retriever returns the whole corpus, because
    [[-0:]] is the full slice. *)
Theorem semantic_search_k_zero
        (embed : str -> vec) (query : str) (text_chunks : list str)
        (embeddings : list vec) :
  length embeddings = length text_chunks ->
  Forall (fun e => length e = length (embed query)) embeddings ->
  SimpleRag.semantic_search embed query text_chunks embeddings 0 = Ok []
  /\ exists results,
      SemanticChunking.semantic_search embed query text_chunks embeddings 0
      = Ok results
      /\ Permutation results text_chunks.
Proof.
  intros Hlen Hdim. split.
  - rewrite simple_search_lookup by (auto; lia). reflexivity.
  - rewrite argsort_search_lookup_zero by assumption.
    pose proof (argsort_perm embed query embeddings) as Hp.
    rewrite Hlen in Hp.
    rewrite (@mapM_getitem _ text_chunks []).
    + eexists; split; [reflexivity|].
      rewrite (Permutation_map _ Hp). now rewrite map_nth_seq.
    + apply Forall_forall. intros i Hi.
      apply (Permutation_in _ Hp), in_seq in Hi. lia.
Qed.

(** X12.  A search never returns a position of the corpus twice and never
    anything outside it, zero-norm embeddings included: for [k >= 1] the
    results are the chunks at [min(k, len)] pairwise distinct positions, and
    for [k >= len] they are all chunks, each exactly once. *)
Theorem semantic_search_distinct_positions
        (embed : str -> vec) (query : str) (text_chunks : list str)
        (embeddings : list vec) (k : Z) :
  length embeddings = length text_chunks ->
  Forall (fun e => length e = length (embed query)) embeddings ->
  (1 <= k)%Z ->
  (exists positions : list nat,
      SimpleRag.semantic_search embed query text_chunks embeddings k
      = Ok (map (fun i => nth i text_chunks []) positions)
      /\ NoDup positions
      /\ Forall (fun i => (i < length text_chunks)%nat) positions
      /\ length positions = Nat.min (Z.to_nat k) (length text_chunks)
      /\ ((Z.of_nat (length text_chunks) <= k)%Z ->
          Permutation (map (fun i => nth i text_chunks []) positions)
                      text_chunks))
  /\ (exists positions : list nat,
         SemanticChunking.semantic_search embed query text_chunks embeddings k
         = Ok (map (fun i => nth i text_chunks []) positions)
         /\ NoDup positions
         /\ Forall (fun i => (i < length text_chunks)%nat) positions
         /\ length positions = Nat.min (Z.to_nat k) (length text_chunks)
         /\ ((Z.of_nat (length text_chunks) <= k)%Z ->
             Permutation (map (fun i => nth i text_chunks []) positions)
                         text_chunks)).
Proof.
  intros Hlen Hdim Hk. split.
  - pose proof (index_ranking_perm embed query embeddings
                  (fun y x : nat * double => dlt (snd x) (snd y))) as Hp.
    rewrite Hlen in Hp.
    eexists. split; [apply simple_search_shape; auto; lia|].
    now apply ranking_prefix.
  - pose proof (argsort_perm embed query embeddings) as Hp.
    rewrite Hlen in Hp.
    eexists. split; [apply argsort_search_shape; auto|].
    now apply ranking_prefix.
Qed.

(** X13.  An embedding whose dimension differs from the query embedding's
    makes every retriever raise [ValueError]: no partial result is
    returned. *)
Theorem semantic_search_dimension_mismatch
        (embed : str -> vec) (query : str) (text_chunks : list str)
        (embeddings : list vec) (k : Z) :
  Exists (fun e => length e <> length (embed query)) embeddings ->
  SimpleRag.semantic_search embed query text_chunks embeddings k
  = Raise ValueError
  /\ SemanticChunking.semantic_search embed query text_chunks embeddings k
     = Raise ValueError.
Proof.
  intros Hex. split.
  - unfold SimpleRag.semantic_search, enumerate.
    rewrite mapM_cosine_indexed_raise; [reflexivity| |assumption].
    now rewrite length_seq.
  - unfold SemanticChunking.semantic_search.
    now rewrite mapM_cosine_raise.
Qed.

(** X14.  When there are fewer chunks than embeddings and [k] asks for every
    embedding, both retrievers raise [IndexError]. *)
Theorem semantic_search_missing_chunks
        (embed : str -> vec) (query : str) (text_chunks : list str)
        (embeddings : list vec) (k : Z) :
  Forall (fun e => length e = length (embed query)) embeddings ->
  (length text_chunks < length embeddings)%nat ->
  (Z.of_nat (length embeddings) <= k)%Z ->
  SimpleRag.semantic_search embed query text_chunks embeddings k
  = Raise IndexError
  /\ SemanticChunking.semantic_search embed query text_chunks embeddings k
     = Raise IndexError.
Proof.
  intros Hdim Hlt Hk.
  assert (forall ranking,
             Permutation ranking (seq 0 (length embeddings)) ->
             mapM (fun i => getitem text_chunks (Z.of_nat i))
                  (firstn (Z.to_nat k) ranking)
             = Raise IndexError) as Hraise.
  { intros ranking Hp.
    rewrite firstn_all2 by (rewrite (Permutation_length Hp), length_seq; lia).
    apply mapM_raise.
    - intros i _. apply getitem_cases.
    - apply Exists_exists. exists (length embeddings - 1)%nat. split.
      + apply (Permutation_in _ (Permutation_sym Hp)), in_seq. lia.
      + apply getitem_out_of_range_nat. lia. }
  split.
  - rewrite simple_search_lookup by (auto; lia).
    apply Hraise, index_ranking_perm.
  - rewrite argsort_search_lookup by (auto; lia).
    apply Hraise, argsort_perm.
Qed.

End RetrieverExtras.

Section RetrieverExtrasWitnesses.
Import Sample.

(** X11 on the sample corpus. *)
Lemma semantic_search_k_zero_witness :
  length embeddings = length chunks
  /\ Forall (fun e => length e = length (embed query)) embeddings
  /\ SimpleRag.semantic_search embed query chunks embeddings 0 = Ok []
  /\ exists results,
      SemanticChunking.semantic_search embed query chunks embeddings 0
      = Ok results
      /\ Permutation results chunks.
Proof.
  assert (length embeddings = length chunks) as H1 by reflexivity.
  assert (Forall (fun e => length e = length (embed query)) embeddings) as H2
      by (repeat constructor).
  split; [exact H1|]. split; [exact H2|].
  exact (@semantic_search_k_zero embed query chunks embeddings H1 H2).
Defined.

(** X12 on the sample corpus with a zero embedding added and [k = 4]. *)
Lemma semantic_search_distinct_positions_witness :
  length ([0; 0]%double :: embeddings) = length (s "z" :: chunks)
  /\ Forall (fun e => length e = length (embed query)) ([0; 0]%double :: embeddings)
  /\ (1 <= 4)%Z
  /\ (exists positions : list nat,
         SimpleRag.semantic_search embed query (s "z" :: chunks)
                                   ([0; 0]%double :: embeddings) 4
         = Ok (map (fun i => nth i (s "z" :: chunks) []) positions)
         /\ NoDup positions
         /\ Forall (fun i => (i < length (s "z" :: chunks))%nat) positions
         /\ length positions = Nat.min (Z.to_nat 4) (length (s "z" :: chunks))
         /\ ((Z.of_nat (length (s "z" :: chunks)) <= 4)%Z ->
             Permutation (map (fun i => nth i (s "z" :: chunks) []) positions)
                         (s "z" :: chunks)))
  /\ (exists positions : list nat,
         SemanticChunking.semantic_search embed query (s "z" :: chunks)
                                          ([0; 0]%double :: embeddings) 4
         = Ok (map (fun i => nth i (s "z" :: chunks) []) positions)
         /\ NoDup positions
         /\ Forall (fun i => (i < length (s "z" :: chunks))%nat) positions
         /\ length positions = Nat.min (Z.to_nat 4) (length (s "z" :: chunks))
         /\ ((Z.of_nat (length (s "z" :: chunks)) <= 4)%Z ->
             Permutation (map (fun i => nth i (s "z" :: chunks) []) positions)
                         (s "z" :: chunks))).
Proof.
  assert (length ([0; 0]%double :: embeddings) = length (s "z" :: chunks)) as H1
      by reflexivity.
  assert (Forall (fun e => length e = length (embed query))
                 ([0; 0]%double :: embeddings)) as H2 by (repeat constructor).
  assert (1 <= 4)%Z as H3 by lia.
  split; [exact H1|]. split; [exact H2|]. split; [exact H3|].
  exact (@semantic_search_distinct_positions embed query (s "z" :: chunks)
           ([0; 0]%double :: embeddings) 4 H1 H2 H3).
Defined.

(** X13 with a one-dimensional embedding among two-dimensional ones. *)
Lemma semantic_search_dimension_mismatch_witness :
  Exists (fun e => length e <> length (embed query)) ([1]%double :: embeddings)
  /\ SimpleRag.semantic_search embed query (s "z" :: chunks)
                               ([1]%double :: embeddings) 2
     = Raise ValueError
  /\ SemanticChunking.semantic_search embed query (s "z" :: chunks)
                                      ([1]%double :: embeddings) 2
     = Raise ValueError.
Proof.
  assert (Exists (fun e => length e <> length (embed query))
                 ([1]%double :: embeddings)) as H
      by (apply Exists_cons_hd; discriminate).
  split; [exact H|].
  exact (@semantic_search_dimension_mismatch embed query (s "z" :: chunks)
           ([1]%double :: embeddings) 2 H).
Defined.

(** X14 with one chunk for the three sample embeddings and [k = 3]. *)
Lemma semantic_search_missing_chunks_witness :
  Forall (fun e => length e = length (embed query)) embeddings
  /\ (length [s "a"] < length embeddings)%nat
  /\ (Z.of_nat (length embeddings) <= 3)%Z
  /\ SimpleRag.semantic_search embed query [s "a"] embeddings 3
     = Raise IndexError
  /\ SemanticChunking.semantic_search embed query [s "a"] embeddings 3
     = Raise IndexError.
Proof.
  assert (Forall (fun e => length e = length (embed query)) embeddings) as H1
      by (repeat constructor).
  assert (length [s "a"] < length embeddings)%nat as H2 by (simpl; lia).
  assert (Z.of_nat (length embeddings) <= 3)%Z as H3 by (simpl; lia).
  split; [exact H1|]. split; [exact H2|]. split; [exact H3|].
  exact (@semantic_search_missing_chunks embed query [s "a"] embeddings 3
           H1 H2 H3).
Defined.

End RetrieverExtrasWitnesses.

(** ** Further properties of the segmenter and of the chunk size sweep *)

Section SegmenterExtras.

Lemma nth_map_seq {A} (f : nat -> A) (d : A) (c k : nat) :
  (k < c)%nat -> nth k (map f (seq 0 c)) d = f k.
Proof.
  intros H.
  rewrite (nth_indep _ d (f 0%nat)) by (now rewrite length_map, length_seq).
  rewrite (map_nth f). now rewrite seq_nth.
Qed.

Lemma ceil_div_antitone (len b1 b2 : Z) :
  (0 <= len)%Z -> (0 < b1 <= b2)%Z -> (ceil_div len b2 <= ceil_div len b1)%Z.
Proof.
  intros Hl Hb.
  pose proof (@ceil_div_spec len b1 ltac:(lia)) as [_ H1].
  pose proof (@ceil_div_spec len b2 ltac:(lia)) as [H2 _].
  pose proof (@ceil_div_nonneg len b1 Hl ltac:(lia)) as Hc.
  nia.
Qed.

Lemma chunk_text_count (input : str) (n overlap : Z) (windows : list str) :
  (overlap < n)%Z ->
  chunk_text input n overlap = Ok windows ->
  Z.of_nat (length windows) = ceil_div (Z.of_nat (length input)) (n - overlap).
Proof.
  intros H E. rewrite chunk_text_offsets in E by assumption.
  injection E as <-. rewrite length_map, length_seq.
  pose proof (@ceil_div_nonneg (Z.of_nat (length input)) (n - overlap)
                ltac:(lia) ltac:(lia)).
  lia.
Qed.

(** X15.  For [0 <= overlap < n], every window is a non-empty substring of
    the text with at most [n] characters, and there is no window exactly when
    the text is empty. *)
Theorem chunk_text_window_sizes
        (input : str) (n overlap : Z) (windows : list str) :
  (0 <= overlap < n)%Z ->
  chunk_text input n overlap = Ok windows ->
  Forall (fun w => (1 <= length w <= Z.to_nat n)%nat
                   /\ exists before after, input = before ++ w ++ after)
         windows
  /\ (windows = [] <-> input = []).
Proof.
  intros H E. pose proof (@chunk_text_count input n overlap windows ltac:(lia) E) as Hc.
  pose proof (@ceil_div_spec (Z.of_nat (length input)) (n - overlap)
                ltac:(lia)) as [Hlo Hhi].
  rewrite chunk_text_offsets in E by lia. injection E as <-. split.
  - apply Forall_forall. intros w Hw.
    apply in_map_iff in Hw as (k & <- & Hk). apply in_seq in Hk.
    assert (Z.of_nat k * (n - overlap) < Z.of_nat (length input))%Z as Ho
        by (apply offset_in_range; lia).
    rewrite slice_window by nia. split.
    + rewrite length_firstn, length_skipn. nia.
    + exists (firstn (Z.to_nat (Z.of_nat k * (n - overlap))) input).
      eexists. rewrite firstn_skipn. now rewrite firstn_skipn.
  - rewrite length_map, length_seq in Hc. split; intros E.
    + apply (f_equal (@length _)) in E.
      rewrite length_map, length_seq in E.
      destruct input; [reflexivity|]. cbn [length] in *. nia.
    + subst input. cbn [length] in *.
      replace (Z.to_nat _) with 0%nat by nia. reflexivity.
Qed.

(** X16.  For [0 <= overlap < n], two consecutive windows overlap as the
    parameter says: what is left of a window after its first [n - overlap]
    characters is the first [overlap] characters of the next window. *)
Theorem chunk_text_adjacent_overlap
        (input : str) (n overlap : Z) (windows : list str) (k : nat) :
  (0 <= overlap < n)%Z ->
  chunk_text input n overlap = Ok windows ->
  (S k < length windows)%nat ->
  slice_from (nth k windows []) (n - overlap)
  = slice_to (nth (S k) windows []) overlap.
Proof.
  intros H E Hk. rewrite chunk_text_offsets in E by lia. injection E as <-.
  rewrite length_map, length_seq in Hk.
  rewrite !nth_map_seq by lia.
  rewrite slice_from_nonneg, slice_to_nonneg by lia.
  rewrite !slice_window by nia.
  rewrite skipn_firstn_comm, skipn_skipn, firstn_firstn.
  f_equal; [lia|]. f_equal. nia.
Qed.

(** X17.  Without overlap the windows partition the text: concatenated they
    give it back, and every window but the last has exactly [n]
    characters. *)
Theorem chunk_text_no_overlap_partition
        (input : str) (n : Z) (windows : list str) :
  (1 <= n)%Z ->
  chunk_text input n 0 = Ok windows ->
  concat windows = input
  /\ forall k, (S k < length windows)%nat ->
               length (nth k windows []) = Z.to_nat n.
Proof.
  intros H E. split.
  - destruct (@chunk_text_roundtrip input n 0 ltac:(lia)) as (ws & E' & _ & Hr).
    rewrite E in E'. injection E' as <-.
    destruct windows as [|w rest]; [exact Hr|].
    cbn [remove_overlap] in Hr. cbn [concat].
    rewrite (map_ext _ (fun w' => w')) in Hr
      by (intros w'; now rewrite slice_from_nonneg by lia).
    now rewrite map_id in Hr.
  - intros k Hk. rewrite chunk_text_offsets in E by lia. injection E as <-.
    rewrite length_map, length_seq in Hk.
    assert (Z.of_nat (S k) * (n - 0) < Z.of_nat (length input))%Z as Ho
        by (apply offset_in_range; lia).
    rewrite nth_map_seq by lia.
    rewrite slice_window by nia.
    rewrite length_firstn, length_skipn. nia.
Qed.

Lemma text_chunks_dict_entries
      (extracted_text : str) (chunk_sizes : list Z)
      (items : list (Z * list str)) :
  ChunkSizeSelector.text_chunks_dict extracted_text chunk_sizes = Ok items ->
  map fst items = chunk_sizes
  /\ Forall (fun item =>
               chunk_text extracted_text (fst item) (fst item / 5)
               = Ok (snd item))
            items.
Proof.
  unfold ChunkSizeSelector.text_chunks_dict.
  revert items. induction chunk_sizes as [|size sizes IH]; intros items E.
  - injection E as <-. split; [reflexivity|constructor].
  - cbn [mapM bind] in E.
    destruct (chunk_text extracted_text size (size / 5)) as [chunks|e] eqn:Ec;
      cbn [bind] in E; [|discriminate].
    destruct (mapM _ sizes) as [rest|e] eqn:Er; cbn [bind] in E; [|discriminate].
    injection E as <-. destruct (IH rest eq_refl) as [Hk Hv].
    split; [cbn [map fst]; now rewrite Hk|].
    constructor; [exact Ec|exact Hv].
Qed.

Lemma sweep_overlap_bound (size : Z) : (1 <= size)%Z -> (0 <= size / 5 < size)%Z.
Proof. intros H. split; [apply Z.div_pos; lia|apply Z.div_lt; lia]. Qed.

Lemma sweep_step_monotone (size1 size2 : Z) :
  (size1 <= size2)%Z -> (size1 - size1 / 5 <= size2 - size2 / 5)%Z.
Proof.
  intros H.
  pose proof (Z.div_mod size1 5 ltac:(lia)).
  pose proof (Z.mod_pos_bound size1 5 ltac:(lia)).
  pose proof (Z.div_mod size2 5 ltac:(lia)).
  pose proof (Z.mod_pos_bound size2 5 ltac:(lia)).
  lia.
Qed.

(** X18.  The sweep of notebook 03 over distinct chunk sizes, all at least 1,
    succeeds with one entry per size, in order; the chunks of every entry,
    with overlap [size // 5], reassemble to the text. *)
Theorem text_chunks_dict_sweep (extracted_text : str) (chunk_sizes : list Z) :
  NoDup chunk_sizes ->
  Forall (fun size => (1 <= size)%Z) chunk_sizes ->
  exists items,
    ChunkSizeSelector.text_chunks_dict extracted_text chunk_sizes = Ok items
    /\ map fst items = chunk_sizes
    /\ Forall (fun item =>
                 remove_overlap (fst item / 5) (snd item) = extracted_text)
              items.
Proof.
  intros _ Hsizes.
  assert (exists items,
             ChunkSizeSelector.text_chunks_dict extracted_text chunk_sizes
             = Ok items) as [items E].
  { unfold ChunkSizeSelector.text_chunks_dict.
    induction Hsizes as [|size sizes Hs _ [rest IH]]; [now exists []|].
    destruct (@chunk_text_roundtrip extracted_text size (size / 5)
                (sweep_overlap_bound Hs)) as (ws & E & _).
    eexists. cbn [mapM]. rewrite E. cbn [bind]. rewrite IH. reflexivity. }
  exists items. split; [exact E|].
  destruct (text_chunks_dict_entries _ _ E) as [Hk Hv].
  split; [exact Hk|].
  rewrite <- Hk in Hsizes. rewrite Forall_map in Hsizes.
  rewrite Forall_forall in *. intros item Hin.
  destruct (@chunk_text_roundtrip extracted_text (fst item) (fst item / 5)
              (sweep_overlap_bound (Hsizes _ Hin))) as (ws & E' & _ & Hr).
  rewrite (Hv _ Hin) in E'. now injection E' as <-.
Qed.

(** X19.  In the sweep a larger chunk size never gives more chunks. *)
Theorem text_chunks_dict_counts_decrease
        (extracted_text : str) (chunk_sizes : list Z)
        (items : list (Z * list str))
        (size1 size2 : Z) (chunks1 chunks2 : list str) :
  ChunkSizeSelector.text_chunks_dict extracted_text chunk_sizes = Ok items ->
  In (size1, chunks1) items ->
  In (size2, chunks2) items ->
  (1 <= size1 <= size2)%Z ->
  (length chunks2 <= length chunks1)%nat.
Proof.
  intros E H1 H2 Hs.
  destruct (text_chunks_dict_entries _ _ E) as [_ Hv].
  rewrite Forall_forall in Hv.
  pose proof (Hv _ H1) as E1. pose proof (Hv _ H2) as E2. cbn [fst snd] in *.
  pose proof (@sweep_overlap_bound size1 ltac:(lia)) as B1.
  pose proof (@sweep_overlap_bound size2 ltac:(lia)) as B2.
  apply chunk_text_count in E1; [|lia]. apply chunk_text_count in E2; [|lia].
  pose proof (@ceil_div_antitone (Z.of_nat (length extracted_text))
                (size1 - size1 / 5) (size2 - size2 / 5) ltac:(lia)
                ltac:(split; [lia|apply sweep_step_monotone; lia])).
  lia.
Qed.

(** X20.  A chunk size of 0 anywhere in the sweep makes it raise
    [ValueError]: the step of the segmenter is then 0. *)
Theorem text_chunks_dict_zero_size
        (extracted_text : str) (chunk_sizes : list Z) :
  In 0%Z chunk_sizes ->
  ChunkSizeSelector.text_chunks_dict extracted_text chunk_sizes
  = Raise ValueError.
Proof.
  intros Hin. unfold ChunkSizeSelector.text_chunks_dict.
  apply mapM_raise.
  - intros size _. unfold chunk_text, range.
    destruct (_ =? 0)%Z; [now right|left; eexists; reflexivity].
  - apply Exists_exists. exists 0%Z. split; [exact Hin|reflexivity].
Qed.

End SegmenterExtras.

Section SegmenterExtrasWitnesses.

(** X15 on ["abcdefghij"], 4, 1. *)
Lemma chunk_text_window_sizes_witness :
  (0 <= 1 < 4)%Z
  /\ chunk_text (s "abcdefghij") 4 1 = Ok (map s ["abcd"; "defg"; "ghij"; "j"])
  /\ Forall (fun w => (1 <= length w <= Z.to_nat 4)%nat
                      /\ exists before after,
                          s "abcdefghij" = before ++ w ++ after)
            (map s ["abcd"; "defg"; "ghij"; "j"])
  /\ (map s ["abcd"; "defg"; "ghij"; "j"] = [] <-> s "abcdefghij" = []).
Proof.
  assert (0 <= 1 < 4)%Z as H by lia.
  assert (chunk_text (s "abcdefghij") 4 1
          = Ok (map s ["abcd"; "defg"; "ghij"; "j"])) as E by reflexivity.
  split; [exact H|]. split; [exact E|].
  exact (@chunk_text_window_sizes (s "abcdefghij") 4 1 _ H E).
Defined.

(** X16 on the first two windows of ["abcdefghij"], 4, 1. *)
Lemma chunk_text_adjacent_overlap_witness :
  (0 <= 1 < 4)%Z
  /\ chunk_text (s "abcdefghij") 4 1 = Ok (map s ["abcd"; "defg"; "ghij"; "j"])
  /\ (1 < length (map s ["abcd"; "defg"; "ghij"; "j"]))%nat
  /\ slice_from (nth 0 (map s ["abcd"; "defg"; "ghij"; "j"]) []) (4 - 1)
     = slice_to (nth 1 (map s ["abcd"; "defg"; "ghij"; "j"]) []) 1.
Proof.
  assert (0 <= 1 < 4)%Z as H by lia.
  assert (chunk_text (s "abcdefghij") 4 1
          = Ok (map s ["abcd"; "defg"; "ghij"; "j"])) as E by reflexivity.
  assert (1 < length (map s ["abcd"; "defg"; "ghij"; "j"]))%nat as Hk
      by (simpl; lia).
  split; [exact H|]. split; [exact E|]. split; [exact Hk|].
  exact (@chunk_text_adjacent_overlap (s "abcdefghij") 4 1 _ 0 H E Hk).
Defined.

(** X17 on ["abcdefghij"] with windows of 4 characters. *)
Lemma chunk_text_no_overlap_partition_witness :
  (1 <= 4)%Z
  /\ chunk_text (s "abcdefghij") 4 0 = Ok (map s ["abcd"; "efgh"; "ij"])
  /\ concat (map s ["abcd"; "efgh"; "ij"]) = s "abcdefghij"
  /\ forall k, (S k < length (map s ["abcd"; "efgh"; "ij"]))%nat ->
               length (nth k (map s ["abcd"; "efgh"; "ij"]) []) = Z.to_nat 4.
Proof.
  assert (1 <= 4)%Z as H by lia.
  assert (chunk_text (s "abcdefghij") 4 0
          = Ok (map s ["abcd"; "efgh"; "ij"])) as E by reflexivity.
  split; [exact H|]. split; [exact E|].
  exact (@chunk_text_no_overlap_partition (s "abcdefghij") 4 _ H E).
Defined.

(** X18 on ["abcdefghij"] with the sizes 5 and 7. *)
Lemma text_chunks_dict_sweep_witness :
  NoDup [5; 7]%Z
  /\ Forall (fun size => (1 <= size)%Z) [5; 7]%Z
  /\ exists items,
      ChunkSizeSelector.text_chunks_dict (s "abcdefghij") [5; 7]%Z = Ok items
      /\ map fst items = [5; 7]%Z
      /\ Forall (fun item =>
                   remove_overlap (fst item / 5) (snd item) = s "abcdefghij")
                items.
Proof.
  assert (NoDup [5; 7]%Z) as H1.
  { constructor; [simpl; intros [H|[]]; discriminate|].
    constructor; [simpl; tauto|constructor]. }
  assert (Forall (fun size => (1 <= size)%Z) [5; 7]%Z) as H2
      by (repeat constructor; lia).
  split; [exact H1|]. split; [exact H2|].
  exact (@text_chunks_dict_sweep (s "abcdefghij") [5; 7]%Z H1 H2).
Defined.

(** X19 on ["abcdefghij"] with the sizes 5 and 7: three chunks and two. *)
Lemma text_chunks_dict_counts_decrease_witness :
  ChunkSizeSelector.text_chunks_dict (s "abcdefghij") [5; 7]%Z
  = Ok [(5%Z, map s ["abcde"; "efghi"; "ij"]); (7%Z, map s ["abcdefg"; "ghij"])]
  /\ In (5%Z, map s ["abcde"; "efghi"; "ij"])
        [(5%Z, map s ["abcde"; "efghi"; "ij"]); (7%Z, map s ["abcdefg"; "ghij"])]
  /\ In (7%Z, map s ["abcdefg"; "ghij"])
        [(5%Z, map s ["abcde"; "efghi"; "ij"]); (7%Z, map s ["abcdefg"; "ghij"])]
  /\ (1 <= 5 <= 7)%Z
  /\ (length (map s ["abcdefg"; "ghij"])
      <= length (map s ["abcde"; "efghi"; "ij"]))%nat.
Proof.
  assert (ChunkSizeSelector.text_chunks_dict (s "abcdefghij") [5; 7]%Z
          = Ok [(5%Z, map s ["abcde"; "efghi"; "ij"]);
                (7%Z, map s ["abcdefg"; "ghij"])]) as E by reflexivity.
  assert (In (5%Z, map s ["abcde"; "efghi"; "ij"])
             [(5%Z, map s ["abcde"; "efghi"; "ij"]);
              (7%Z, map s ["abcdefg"; "ghij"])]) as H1 by (left; reflexivity).
  assert (In (7%Z, map s ["abcdefg"; "ghij"])
             [(5%Z, map s ["abcde"; "efghi"; "ij"]);
              (7%Z, map s ["abcdefg"; "ghij"])]) as H2
      by (right; left; reflexivity).
  assert (1 <= 5 <= 7)%Z as H3 by lia.
  split; [exact E|]. split; [exact H1|]. split; [exact H2|].
  split; [exact H3|].
  exact (@text_chunks_dict_counts_decrease (s "abcdefghij") [5; 7]%Z _ 5 7 _ _
           E H1 H2 H3).
Defined.

(** X20 on the sizes 5 and 0. *)
Lemma text_chunks_dict_zero_size_witness :
  In 0%Z [5; 0]%Z
  /\ ChunkSizeSelector.text_chunks_dict (s "abcdefghij") [5; 0]%Z
     = Raise ValueError.
Proof.
  assert (In 0%Z [5; 0]%Z) as H by (right; left; reflexivity).
  split; [exact H|].
  exact (@text_chunks_dict_zero_size (s "abcdefghij") [5; 0]%Z H).
Defined.

End SegmenterExtrasWitnesses.

(** ** The two rankings compared *)

Section RetrieverAgreement.

Lemma StronglySorted_weaken {A} (R R' : A -> A -> Prop) (l : list A) :
  (forall x y, In x l -> In y l -> R x y -> R' x y) ->
  StronglySorted R l -> StronglySorted R' l.
Proof.
  intros H Hs. rewrite <- (map_id l).
  now apply StronglySorted_map with (R := R).
Qed.

(** With pairwise distinct scores a ranking by descending score, whatever it
    does with ties, is strictly descending. *)
Lemma ranking_strict (q : vec) (embeddings : list vec) (ranking : list nat)
      (tie : nat -> nat -> Prop) :
  Forall (fun e => is_dnan (sim q e) = false) embeddings ->
  (forall i j, (i < j < length embeddings)%nat ->
               deq (score q embeddings i) (score q embeddings j) = false) ->
  Permutation ranking (seq 0 (length embeddings)) ->
  (forall i, ~ tie i i) ->
  StronglySorted
    (fun i j => dle (score q embeddings j) (score q embeddings i) = true
                /\ (deq (score q embeddings i) (score q embeddings j) = true ->
                    tie i j))
    ranking ->
  StronglySorted
    (fun i j => dlt (score q embeddings j) (score q embeddings i) = true)
    ranking.
Proof.
  intros Hnum Hnd Hp Htie. apply StronglySorted_weaken.
  intros i j Hi Hj [Hle He].
  apply (Permutation_in _ Hp), in_seq in Hi.
  apply (Permutation_in _ Hp), in_seq in Hj.
  assert (forall n, (n < length embeddings)%nat ->
                    is_dnan (score q embeddings n) = false) as Hn.
  { intros n Hlt. rewrite Forall_forall in Hnum. apply Hnum.
    now apply nth_In. }
  pose proof (Hn i ltac:(lia)) as Ni. pose proof (Hn j ltac:(lia)) as Nj.
  destruct (dlt_total _ _ Nj Ni) as [H|[H|H]]; [exact H| |].
  - exfalso. destruct (deq_not_dlt _ _ H) as [H1 H2].
    destruct (dlt_total _ _ Ni Nj) as [K|[K|K]]; try congruence.
    pose proof (He K) as Ht.
    destruct (Nat.lt_trichotomy i j) as [L|[L|L]].
    + rewrite Hnd in K by lia. discriminate.
    + subst j. now apply Htie in Ht.
    + rewrite Hnd in H by lia. discriminate.
  - exfalso. apply dle_not_dlt in Hle; congruence.
Qed.

(** X21.  The retriever of notebook 01 and the argsort retriever return the
    same result whenever no two chunks have equal scores (embeddings of the
    query's dimension, no score NaN, [k >= 1]); the scores are the float64
    values the code computes.  The two differ only in the order of ties. *)
Theorem retrievers_agree_without_ties
        (embed : str -> vec) (query : str) (text_chunks : list str)
        (embeddings : list vec) (k : Z) :
  (1 <= k)%Z ->
  Forall (fun e => length e = length (embed query)
                   /\ is_dnan (sim (embed query) e) = false)
         embeddings ->
  (forall i j, (i < j < length embeddings)%nat ->
               deq (score (embed query) embeddings i)
                   (score (embed query) embeddings j) = false) ->
  SimpleRag.semantic_search embed query text_chunks embeddings k
  = SemanticChunking.semantic_search embed query text_chunks embeddings k.
Proof.
  intros Hk Hreg Hnd.
  assert (Forall (fun e => length e = length (embed query)) embeddings) as Hdim
      by (eapply Forall_impl; [|exact Hreg]; now intros e [H _]).
  assert (Forall (fun e => is_dnan (sim (embed query) e) = false) embeddings)
    as Hnum by (eapply Forall_impl; [|exact Hreg]; now intros e [_ H]).
  rewrite simple_search_lookup, argsort_search_lookup by (auto; lia).
  do 2 f_equal.
  apply StronglySorted_perm_unique
    with (R := fun i j => dlt (score (embed query) embeddings j)
                              (score (embed query) embeddings i) = true).
  - intros x y H1 H2. apply dlt_asym in H1. congruence.
  - apply ranking_strict with (tie := fun i j => (i < j)%nat);
      [assumption|assumption|apply index_ranking_perm|intros i; lia|].
    now apply sort_desc_ranking.
  - apply ranking_strict with (tie := fun i j => (j < i)%nat);
      [assumption|assumption|apply argsort_perm|intros i; lia|].
    now apply argsort_rev_ranking.
  - rewrite index_ranking_perm. symmetry. apply argsort_perm.
Qed.

End RetrieverAgreement.

Section RetrieverAgreementWitness.
Import Sample.

(** X21 on two chunks with the scores 1 and 0. *)
Lemma retrievers_agree_without_ties_witness :
  (1 <= 1)%Z
  /\ Forall (fun e => length e = length (embed query)
                      /\ is_dnan (sim (embed query) e) = false)
            [[1; 0]; [0; 1]]%double
  /\ (forall i j, (i < j < length [[1; 0]; [0; 1]]%double)%nat ->
                  deq (score (embed query) [[1; 0]; [0; 1]]%double i)
                      (score (embed query) [[1; 0]; [0; 1]]%double j) = false)
  /\ SimpleRag.semantic_search embed query [s "a"; s "b"]
                               [[1; 0]; [0; 1]]%double 1
     = SemanticChunking.semantic_search embed query [s "a"; s "b"]
                                        [[1; 0]; [0; 1]]%double 1.
Proof.
  assert (1 <= 1)%Z as H1 by lia.
  assert (Forall (fun e => length e = length (embed query)
                           /\ is_dnan (sim (embed query) e) = false)
                 [[1; 0]; [0; 1]]%double) as H2 by (repeat constructor).
  assert (forall i j, (i < j < length [[1; 0]; [0; 1]]%double)%nat ->
                      deq (score (embed query) [[1; 0]; [0; 1]]%double i)
                          (score (embed query) [[1; 0]; [0; 1]]%double j)
                      = false) as H3.
  { intros i j H. cbn [length] in H.
    assert (i = 0%nat) as -> by lia. assert (j = 1%nat) as -> by lia.
    reflexivity. }
  split; [exact H1|]. split; [exact H2|]. split; [exact H3|].
  exact (@retrievers_agree_without_ties embed query [s "a"; s "b"]
           [[1; 0]; [0; 1]]%double 1 H1 H2 H3).
Defined.

End RetrieverAgreementWitness.

(** ** The similarities of neighbouring sentences *)

Section AdjacentSimilarities.

Lemma mapM_ok_map {A B} (f : A -> result B) (g : A -> B) (l : list A) :
  (forall x, In x l -> f x = Ok (g x)) -> mapM f l = Ok (map g l).
Proof.
  intros H. induction l as [|x l IH]; [reflexivity|].
  cbn [mapM map]. rewrite (H x) by (now left). cbn [bind].
  rewrite IH by (intros y Hy; apply H; now right). reflexivity.
Qed.

Lemma getitem_nat {A} (l : list A) (d : A) (i : nat) :
  (i < length l)%nat -> getitem l (Z.of_nat i) = Ok (nth i l d).
Proof.
  intros Hi. unfold getitem.
  destruct (Z.ltb_spec (Z.of_nat i) 0); [lia|].
  destruct (Z.ltb_spec (Z.of_nat i) 0); [lia|].
  rewrite Nat2Z.id. now rewrite (nth_error_nth' l d Hi).
Qed.

Lemma range_upto (n : Z) :
  range 0 n 1 = Ok (map Z.of_nat (seq 0 (Z.to_nat n))).
Proof.
  unfold range, range_len. cbn [Z.eqb Z.ltb Z.compare].
  destruct (Z.ltb_spec 0 n) as [Hn|Hn].
  - rewrite Z.div_1_r.
    replace (Z.to_nat (n - 0 - 1 + 1)) with (Z.to_nat n) by lia.
    f_equal. apply map_ext. intros k. lia.
  - replace (Z.to_nat n) with 0%nat by lia. reflexivity.
Qed.

(** X22.  For embeddings of one dimension the cell computes one similarity
    per pair of neighbours: [len - 1] values, none for fewer than two
    embeddings, the [i]-th being the similarity of embeddings [i] and
    [i + 1]. *)
Theorem similarities_of_neighbours (embeddings : list vec) (d : nat) :
  Forall (fun e => length e = d) embeddings ->
  exists similarities,
    SemanticCells.similarities embeddings = Ok similarities
    /\ length similarities = (length embeddings - 1)%nat
    /\ forall i, (S i < length embeddings)%nat ->
                 cosine_similarity (nth i embeddings []) (nth (S i) embeddings [])
                 = Ok (nth i similarities dnan).
Proof.
  intros Hdim.
  set (pair_sim := fun i => sim (nth i embeddings []) (nth (S i) embeddings [])).
  assert (forall i, (i < length embeddings)%nat ->
                    length (nth i embeddings []) = d) as Hd.
  { intros i Hi. rewrite Forall_forall in Hdim. now apply Hdim, nth_In. }
  exists (map pair_sim (seq 0 (length embeddings - 1))).
  split; [|split].
  - unfold SemanticCells.similarities. rewrite range_upto. cbn [bind].
    replace (Z.to_nat (Z.of_nat (length embeddings) - 1))
      with (length embeddings - 1)%nat by lia.
    rewrite (@mapM_ok_map _ _ _ (fun i => pair_sim (Z.to_nat i)));
      [now rewrite map_map, (map_ext _ pair_sim) by (intros; now rewrite Nat2Z.id)|].
    intros i Hi. apply in_map_iff in Hi as (k & <- & Hk). apply in_seq in Hk.
    rewrite (@getitem_nat _ embeddings [] k) by lia. cbn [bind].
    replace (Z.of_nat k + 1)%Z with (Z.of_nat (S k)) by lia.
    rewrite (@getitem_nat _ embeddings [] (S k)) by lia. cbn [bind].
    rewrite Nat2Z.id. apply cosine_similarity_sim.
    rewrite !Hd by lia. reflexivity.
  - now rewrite length_map, length_seq.
  - intros i Hi.
    rewrite (nth_indep _ dnan (pair_sim 0%nat))
      by (rewrite length_map, length_seq; lia).
    rewrite (map_nth pair_sim), seq_nth by lia.
    apply cosine_similarity_sim. rewrite !Hd by lia. reflexivity.
Qed.

(** X22 on the three sample embeddings. *)
Lemma similarities_of_neighbours_witness :
  Forall (fun e => length e = 2%nat) Sample.embeddings
  /\ exists similarities,
      SemanticCells.similarities Sample.embeddings = Ok similarities
      /\ length similarities = (length Sample.embeddings - 1)%nat
      /\ forall i, (S i < length Sample.embeddings)%nat ->
                   cosine_similarity (nth i Sample.embeddings [])
                                     (nth (S i) Sample.embeddings [])
                   = Ok (nth i similarities dnan).
Proof.
  assert (Forall (fun e => length e = 2%nat) Sample.embeddings) as H
      by (repeat constructor).
  split; [exact H|].
  exact (@similarities_of_neighbours Sample.embeddings 2 H).
Defined.

End AdjacentSimilarities.

(** ** Stripping, generated headers and the search of notebook 05 *)

Section StripFacts.

Lemma lstrip_head (input : str) (c : ascii) (rest : str) :
  lstrip input = c :: rest -> is_space c = false.
Proof.
  induction input as [|a input IH]; cbn [lstrip]; [discriminate|].
  destruct (is_space a) eqn:Ea; [exact IH|].
  intros E. injection E as <- _. exact Ea.
Qed.

Lemma lstrip_split (input : str) :
  exists blanks,
    input = blanks ++ lstrip input /\ Forall (fun c => is_space c = true) blanks.
Proof.
  induction input as [|a input (blanks & E & Hb)]; cbn [lstrip].
  - exists []. split; [reflexivity|constructor].
  - destruct (is_space a) eqn:Ea.
    + exists (a :: blanks). split; [cbn [app]; now f_equal|now constructor].
    + exists []. split; [reflexivity|constructor].
Qed.

Lemma rstrip_last (input init : str) (c : ascii) :
  rstrip input = init ++ [c] -> is_space c = false.
Proof.
  unfold rstrip. intros E. apply (f_equal (@rev _)) in E.
  rewrite rev_involutive, rev_app_distr in E. cbn [rev app] in E.
  now apply lstrip_head in E.
Qed.

Lemma rstrip_split (input : str) :
  exists blanks,
    input = rstrip input ++ blanks /\ Forall (fun c => is_space c = true) blanks.
Proof.
  destruct (lstrip_split (rev input)) as (blanks & E & Hb).
  exists (rev blanks). split; [|now apply Forall_rev].
  unfold rstrip. rewrite <- rev_app_distr, <- E. now rewrite rev_involutive.
Qed.

Lemma lstrip_blanks (blanks input : str) :
  Forall (fun c => is_space c = true) blanks ->
  lstrip (blanks ++ input) = lstrip input.
Proof.
  induction 1 as [|c blanks Hc _ IH]; [reflexivity|].
  cbn [app lstrip]. now rewrite Hc.
Qed.

Lemma rstrip_blanks (input blanks : str) :
  Forall (fun c => is_space c = true) blanks ->
  rstrip (input ++ blanks) = rstrip input.
Proof.
  intros H. unfold rstrip. rewrite rev_app_distr.
  now rewrite lstrip_blanks by (now apply Forall_rev).
Qed.

(** What [strip] leaves: the input without the blanks at its two ends. *)
Lemma strip_split (input : str) :
  exists before after,
    input = before ++ strip input ++ after
    /\ Forall (fun c => is_space c = true) before
    /\ Forall (fun c => is_space c = true) after
    /\ (forall c rest, strip input = c :: rest -> is_space c = false)
    /\ (forall init c, strip input = init ++ [c] -> is_space c = false).
Proof.
  destruct (lstrip_split input) as (before & E1 & H1).
  destruct (rstrip_split (lstrip input)) as (after & E2 & H2).
  exists before, after. fold (strip input) in E2.
  split; [now rewrite <- E2|]. split; [exact H1|]. split; [exact H2|]. split.
  - intros c rest E. rewrite E in E2. cbn [app] in E2.
    now apply lstrip_head in E2.
  - intros init c E. now apply rstrip_last in E.
Qed.

(** A text of blanks only strips to the empty text. *)
Lemma lstrip_all_blanks (blanks : str) :
  Forall (fun c => is_space c = true) blanks -> lstrip blanks = [].
Proof.
  intros H. rewrite <- (app_nil_r blanks). now rewrite lstrip_blanks.
Qed.

Lemma strip_blanks_around (before input after : str) :
  Forall (fun c => is_space c = true) before ->
  Forall (fun c => is_space c = true) after ->
  strip (before ++ input ++ after) = strip input.
Proof.
  intros Hb Ha. unfold strip. rewrite lstrip_blanks by assumption.
  destruct (lstrip_split input) as (blanks & E & Hblanks).
  destruct (lstrip input) as [|c rest] eqn:El.
  - rewrite app_nil_r in E. subst input.
    rewrite lstrip_all_blanks by (apply Forall_app; now split).
    reflexivity.
  - rewrite E at 1. rewrite <- app_assoc, lstrip_blanks by assumption.
    cbn [app lstrip]. rewrite (lstrip_head _ El).
    change (c :: rest ++ after) with ((c :: rest) ++ after).
    now apply rstrip_blanks.
Qed.

End StripFacts.

Section HeaderExtras.

(** X23.  A generated header is the provider's answer to the title prompt
    without the blanks at its two ends: it neither starts nor ends with a
    blank, and only blanks were removed. *)
Theorem generate_chunk_header_stripped
        (complete : str -> str -> str) (chunk : str) :
  exists before after,
    complete (s "Generate a concise and informative title for the given text.")
             chunk
    = before ++ HeaderChunks.generate_chunk_header complete chunk ++ after
    /\ Forall (fun c => is_space c = true) before
    /\ Forall (fun c => is_space c = true) after
    /\ (forall c rest,
           HeaderChunks.generate_chunk_header complete chunk = c :: rest ->
           is_space c = false)
    /\ (forall init c,
           HeaderChunks.generate_chunk_header complete chunk = init ++ [c] ->
           is_space c = false).
Proof. unfold HeaderChunks.generate_chunk_header. apply strip_split. Qed.

Lemma header_search_ranking
      (embed : str -> vec) (query : str) (chunks : list chunk) (k : Z) :
  (0 <= k)%Z ->
  Forall (fun c => length (embedding c) = length (embed query)
                   /\ length (header_embedding c) = length (embed query))
         chunks ->
  exists ranking,
    Permutation ranking chunks
    /\ ChunkHeaders.semantic_search embed query chunks k
       = Ok (firstn (Z.to_nat k) ranking).
Proof.
  intros Hk Hdim. unfold ChunkHeaders.semantic_search.
  rewrite mapM_header_scores by assumption. cbn [bind].
  rewrite slice_to_nonneg by assumption. rewrite <- firstn_map.
  eexists. split; [|reflexivity].
  rewrite (Permutation_map fst (sort_by_perm _ _)).
  rewrite map_map. cbn [fst]. now rewrite map_id.
Qed.

(** X24.  The search of notebook 05 selects among its input: on chunks whose
    two embeddings have the query's dimension, zero-norm embeddings
    included, and for [k >= 0] it returns the first [k] chunks of a
    rearrangement of the input, so [min(k, len)] chunks, each from the input
    and none more often than there. *)
Theorem header_search_selects
        (embed : str -> vec) (query : str) (chunks : list chunk) (k : Z) :
  (0 <= k)%Z ->
  Forall (fun c => length (embedding c) = length (embed query)
                   /\ length (header_embedding c) = length (embed query))
         chunks ->
  exists results rest,
    ChunkHeaders.semantic_search embed query chunks k = Ok results
    /\ Permutation (results ++ rest) chunks
    /\ length results = Nat.min (Z.to_nat k) (length chunks).
Proof.
  intros Hk Hdim.
  destruct (header_search_ranking embed query Hk Hdim) as (ranking & Hp & E).
  exists (firstn (Z.to_nat k) ranking), (skipn (Z.to_nat k) ranking).
  split; [exact E|]. rewrite firstn_skipn. split; [exact Hp|].
  now rewrite length_firstn, (Permutation_length Hp).
Qed.

(** X25.  A chunk whose text or header embedding has another dimension than
    the query embedding makes the search of notebook 05 raise
    [ValueError]. *)
Theorem header_search_dimension_mismatch
        (embed : str -> vec) (query : str) (chunks : list chunk) (k : Z) :
  Exists (fun c => length (embedding c) <> length (embed query)
                   \/ length (header_embedding c) <> length (embed query))
         chunks ->
  ChunkHeaders.semantic_search embed query chunks k = Raise ValueError.
Proof.
  intros Hex. unfold ChunkHeaders.semantic_search.
  rewrite (@mapM_raise _ _ _ ValueError); [reflexivity| |].
  - intros c _.
    destruct (cosine_similarity_cases (embed query) (embedding c))
      as [[x ->] | ->]; [|now right].
    destruct (cosine_similarity_cases (embed query) (header_embedding c))
      as [[y ->] | ->]; [|now right].
    left. eexists. reflexivity.
  - eapply Exists_impl; [|exact Hex]. intros c [H|H].
    + rewrite cosine_similarity_mismatch by congruence. reflexivity.
    + destruct (cosine_similarity_cases (embed query) (embedding c))
        as [[x ->] | ->]; [|reflexivity].
      cbn [bind]. rewrite cosine_similarity_mismatch by congruence.
      reflexivity.
Qed.

(** X26.  The pipeline of notebook 05 from the document to the search
    result.  With [0 <= overlap < n], [k >= 0] and an embedding provider of
    fixed dimension, chunking with headers succeeds with the windows of
    [chunk_text] as texts, the search over the embedded chunks succeeds with
    [min(k, number of windows)] results, and every result is a window of the
    document with the embedding of its text and of its header. *)
Theorem header_pipeline
        (complete : str -> str -> str) (create_embeddings : str -> vec)
        (document : str) (n overlap : Z) (query : str) (k : Z) (d : nat) :
  (0 <= overlap < n)%Z ->
  (0 <= k)%Z ->
  (forall input, length (create_embeddings input) = d) ->
  exists text_chunks results,
    HeaderChunks.chunk_text_with_headers complete document n overlap
    = Ok text_chunks
    /\ chunk_text document n overlap = Ok (map HeaderChunks.text text_chunks)
    /\ ChunkHeaders.semantic_search
         create_embeddings query
         (HeaderChunks.embeddings create_embeddings text_chunks) k
       = Ok results
    /\ length results = Nat.min (Z.to_nat k) (length text_chunks)
    /\ Forall (fun c =>
                 In (text c) (map HeaderChunks.text text_chunks)
                 /\ embedding c = create_embeddings (text c)
                 /\ header_embedding c = create_embeddings (header c))
              results.
Proof.
  intros H Hk Hd.
  unfold HeaderChunks.chunk_text_with_headers, chunk_text.
  rewrite range_from_zero by lia. cbn [bind].
  eexists. set (text_chunks := map _ (map _ _)).
  assert (Forall (fun c =>
                    In (text c) (map HeaderChunks.text text_chunks)
                    /\ embedding c = create_embeddings (text c)
                    /\ header_embedding c = create_embeddings (header c))
                 (HeaderChunks.embeddings create_embeddings text_chunks))
    as Hall.
  { unfold HeaderChunks.embeddings. rewrite Forall_map.
    apply Forall_forall. intros c Hc. cbn.
    split; [now apply in_map|]. now split. }
  destruct (@header_search_ranking create_embeddings query
              (HeaderChunks.embeddings create_embeddings text_chunks) k Hk)
    as (ranking & Hp & E).
  { eapply Forall_impl; [|exact Hall]. intros c (_ & -> & ->).
    now rewrite !Hd. }
  exists (firstn (Z.to_nat k) ranking).
  split; [reflexivity|]. split.
  { f_equal. unfold text_chunks. rewrite !map_map. reflexivity. }
  split; [exact E|]. split.
  - rewrite length_firstn, (Permutation_length Hp).
    unfold HeaderChunks.embeddings. now rewrite length_map.
  - apply Forall_forall. intros c Hc. rewrite Forall_forall in Hall.
    apply Hall, (Permutation_in _ Hp).
    rewrite <- (firstn_skipn (Z.to_nat k) ranking). apply in_or_app. now left.
Qed.

End HeaderExtras.

Section HeaderExtrasWitnesses.
Import Sample.

(** X24 on the two sample chunks with [k = 1]. *)
Lemma header_search_selects_witness :
  (0 <= 1)%Z
  /\ Forall (fun c => length (embedding c) = length (embed query)
                      /\ length (header_embedding c) = length (embed query))
            header_chunks
  /\ exists results rest,
      ChunkHeaders.semantic_search embed query header_chunks 1 = Ok results
      /\ Permutation (results ++ rest) header_chunks
      /\ length results = Nat.min (Z.to_nat 1) (length header_chunks).
Proof.
  assert (0 <= 1)%Z as H1 by lia.
  assert (Forall (fun c => length (embedding c) = length (embed query)
                           /\ length (header_embedding c)
                              = length (embed query))
                 header_chunks) as H2 by (repeat constructor).
  split; [exact H1|]. split; [exact H2|].
  exact (@header_search_selects embed query header_chunks 1 H1 H2).
Defined.

(** X25 on a chunk whose header embedding has one component only. *)
Lemma header_search_dimension_mismatch_witness :
  Exists (fun c => length (embedding c) <> length (embed query)
                   \/ length (header_embedding c) <> length (embed query))
         [ {| header := s "h"; text := s "t"; embedding := [0; 1]%double;
              header_embedding := [1]%double |} ]
  /\ ChunkHeaders.semantic_search
       embed query
       [ {| header := s "h"; text := s "t"; embedding := [0; 1]%double;
            header_embedding := [1]%double |} ] 1
     = Raise ValueError.
Proof.
  assert (Exists (fun c => length (embedding c) <> length (embed query)
                           \/ length (header_embedding c)
                              <> length (embed query))
                 [ {| header := s "h"; text := s "t";
                      embedding := [0; 1]%double;
                      header_embedding := [1]%double |} ]) as H
      by (apply Exists_cons_hd; right; discriminate).
  split; [exact H|].
  exact (@header_search_dimension_mismatch embed query _ 1 H).
Defined.

(** X26 on ["abcdefghij"] with windows of 4 characters overlapping by 1, a
    chat provider that always answers [" T "] and the sample embedding
    provider. *)
Lemma header_pipeline_witness :
  (0 <= 1 < 4)%Z
  /\ (0 <= 2)%Z
  /\ (forall input, length (embed input) = 2%nat)
  /\ exists text_chunks results,
      HeaderChunks.chunk_text_with_headers (fun _ _ => s " T ")
                                           (s "abcdefghij") 4 1
      = Ok text_chunks
      /\ chunk_text (s "abcdefghij") 4 1
         = Ok (map HeaderChunks.text text_chunks)
      /\ ChunkHeaders.semantic_search
           embed query (HeaderChunks.embeddings embed text_chunks) 2
         = Ok results
      /\ length results = Nat.min (Z.to_nat 2) (length text_chunks)
      /\ Forall (fun c =>
                   In (text c) (map HeaderChunks.text text_chunks)
                   /\ embedding c = embed (text c)
                   /\ header_embedding c = embed (header c))
                results.
Proof.
  assert (0 <= 1 < 4)%Z as H1 by lia.
  assert (0 <= 2)%Z as H2 by lia.
  assert (forall input, length (embed input) = 2%nat) as H3
      by (intros input; reflexivity).
  split; [exact H1|]. split; [exact H2|]. split; [exact H3|].
  exact (@header_pipeline (fun _ _ => s " T ") embed (s "abcdefghij") 4 1
           query 2 2 H1 H2 H3).
Defined.

End HeaderExtrasWitnesses.

(** ** Notebook 03: extraction and retrieval per chunk size *)

Section ChunkSizeSelectorExtras.

Lemma fold_left_pages (pages : list str) (all_text : str) :
  fold_left (fun all_text page => all_text ++ (page ++ s " ")) pages all_text
  = all_text ++ concat (map (fun page => page ++ s " ") pages).
Proof.
  revert all_text. induction pages as [|page pages IH]; intros all_text.
  - cbn [fold_left map concat]. now rewrite app_nil_r.
  - cbn [fold_left map concat]. rewrite IH. now rewrite <- app_assoc.
Qed.

Lemma concat_pages_join (pages : list str) :
  pages <> [] ->
  concat (map (fun page => page ++ s " ") pages) = join (s " ") pages ++ s " ".
Proof.
  induction pages as [|page pages IH]; [congruence|]. intros _.
  destruct pages as [|page' pages].
  - cbn [map concat join]. now rewrite app_nil_r.
  - rewrite join_cons by discriminate.
    cbn [map concat] in *. rewrite IH by discriminate.
    now rewrite <- !app_assoc.
Qed.

(** X27.  The extracted text is the page texts joined by single spaces,
    without the blanks at its two ends: it neither starts nor ends with a
    blank. *)
Theorem extract_text_from_pdf_join (pages : list str) :
  ChunkSizeSelector.extract_text_from_pdf pages = strip (join (s " ") pages)
  /\ (forall c rest,
         ChunkSizeSelector.extract_text_from_pdf pages = c :: rest ->
         is_space c = false)
  /\ (forall init c,
         ChunkSizeSelector.extract_text_from_pdf pages = init ++ [c] ->
         is_space c = false).
Proof.
  unfold ChunkSizeSelector.extract_text_from_pdf.
  destruct (strip_split (fold_left (fun all_text page =>
                                      all_text ++ (page ++ s " "))
                                   pages []))
    as (before & after & _ & _ & _ & Hhead & Hlast).
  split; [|split; assumption].
  rewrite fold_left_pages. cbn [app].
  destruct pages as [|page pages]; [reflexivity|].
  rewrite concat_pages_join by discriminate.
  apply (@strip_blanks_around [] (join (s " ") (page :: pages)) (s " "));
    repeat constructor.
Qed.

(** X28.  Retrieval for one chunk size of the sweep.  With a chunk size of at
    least 1, [k >= 1] and a batch embedding provider that returns one vector
    of a fixed dimension per text, segmenting the text, embedding the chunks
    and retrieving for a query succeeds with the chunks at [min(k, len)]
    pairwise distinct positions of the chunk list. *)
Theorem retrieve_relevant_chunks_for_size
        (create_embeddings : list str -> list vec)
        (extracted_text query : str) (size k : Z) (d : nat) :
  (1 <= size)%Z ->
  (1 <= k)%Z ->
  (forall texts, length (create_embeddings texts) = length texts) ->
  (forall texts, Forall (fun e => length e = d) (create_embeddings texts)) ->
  exists text_chunks positions,
    chunk_text extracted_text size (size / 5) = Ok text_chunks
    /\ ChunkSizeSelector.retrieve_relevant_chunks
         create_embeddings query text_chunks (create_embeddings text_chunks) k
       = Ok (map (fun i => nth i text_chunks []) positions)
    /\ NoDup positions
    /\ Forall (fun i => (i < length text_chunks)%nat) positions
    /\ length positions = Nat.min (Z.to_nat k) (length text_chunks).
Proof.
  intros Hsize Hk Hcount Hdim.
  destruct (@chunk_text_roundtrip extracted_text size (size / 5)
              (sweep_overlap_bound Hsize)) as (text_chunks & E & _).
  exists text_chunks.
  destruct (create_embeddings [query]) as [|query_embedding rest] eqn:Eq;
    [specialize (Hcount [query]); rewrite Eq in Hcount; discriminate|].
  assert (length query_embedding = d) as Hq
      by (specialize (Hdim [query]); rewrite Eq in Hdim; now inversion Hdim).
  pose proof (argsort_perm (fun _ => query_embedding) query
                           (create_embeddings text_chunks)) as Hp.
  rewrite Hcount in Hp.
  destruct (ranking_prefix text_chunks k Hp) as (Hnd & Hin & Hlen & _).
  eexists. split; [exact E|].
  split; [|split; [exact Hnd|split; [exact Hin|exact Hlen]]].
  unfold ChunkSizeSelector.retrieve_relevant_chunks. rewrite Eq.
  replace (getitem (query_embedding :: rest) 0) with (Ok query_embedding)
    by reflexivity.
  cbn [bind].
  apply (@argsort_search_shape (fun _ => query_embedding) query text_chunks
           (create_embeddings text_chunks) (Hcount text_chunks)).
  - eapply Forall_impl; [|apply Hdim]. intros e He. cbn beta. congruence.
  - exact Hk.
Qed.

End ChunkSizeSelectorExtras.

Section ChunkSizeSelectorWitnesses.

(** X28 on ["abcdefghij"] with chunk size 5, [k = 2] and a provider that
    embeds every text as [(1, 0)]. *)
Lemma retrieve_relevant_chunks_for_size_witness :
  (1 <= 5)%Z
  /\ (1 <= 2)%Z
  /\ (forall texts, length (map (fun _ : str => [1; 0]%double) texts) = length texts)
  /\ (forall texts,
         Forall (fun e => length e = 2%nat) (map (fun _ : str => [1; 0]%double) texts))
  /\ exists text_chunks positions,
      chunk_text (s "abcdefghij") 5 (5 / 5) = Ok text_chunks
      /\ ChunkSizeSelector.retrieve_relevant_chunks
           (map (fun _ : str => [1; 0]%double)) (s "q") text_chunks
           (map (fun _ : str => [1; 0]%double) text_chunks) 2
         = Ok (map (fun i => nth i text_chunks []) positions)
      /\ NoDup positions
      /\ Forall (fun i => (i < length text_chunks)%nat) positions
      /\ length positions = Nat.min (Z.to_nat 2) (length text_chunks).
Proof.
  assert (1 <= 5)%Z as H1 by lia.
  assert (1 <= 2)%Z as H2 by lia.
  assert (forall texts,
             length (map (fun _ : str => [1; 0]%double) texts) = length texts) as H3
      by (intros texts; apply length_map).
  assert (forall texts,
             Forall (fun e => length e = 2%nat)
                    (map (fun _ : str => [1; 0]%double) texts)) as H4
      by (intros texts; rewrite Forall_map; apply Forall_forall; reflexivity).
  split; [exact H1|]. split; [exact H2|]. split; [exact H3|].
  split; [exact H4|].
  exact (@retrieve_relevant_chunks_for_size (map (fun _ : str => [1; 0]%double))
           (s "abcdefghij") (s "q") 5 2 2 H1 H2 H3 H4).
Defined.

End ChunkSizeSelectorWitnesses.

(** ** The pieces of a split *)

Section SplitPieces.

Lemma no_occurrence_in_empty (sep before after : str) :
  sep <> [] -> [] <> before ++ sep ++ after.
Proof.
  intros Hsep E. apply (f_equal (@length _)) in E.
  rewrite !length_app in E. destruct sep; [congruence|].
  cbn [length] in E. lia.
Qed.

(** The first piece of a scan is a prefix of the text. *)
Lemma split_scan_first_prefix (sep text piece : str) (pieces : list str) :
  sep <> [] ->
  split_scan sep 0 text = piece :: pieces ->
  exists rest, text = piece ++ rest.
Proof.
  intros Hsep E.
  pose proof (@split_scan_join sep (length text) text Hsep (le_n _)) as Hj.
  rewrite E in Hj. destruct pieces as [|piece' pieces].
  - exists []. cbn [join] in Hj. now rewrite app_nil_r.
  - rewrite join_cons in Hj by discriminate. eexists. symmetry. exact Hj.
Qed.

Lemma split_scan_no_separator (sep : str) (n : nat) (text : str) :
  sep <> [] ->
  (length text <= n)%nat ->
  Forall (fun piece => forall before after, piece <> before ++ sep ++ after)
         (split_scan sep 0 text).
Proof.
  intros Hsep. revert text. induction n as [|n IH]; intros text Hn.
  - destruct text; [|cbn [length] in Hn; lia].
    constructor; [|constructor].
    intros before after. now apply no_occurrence_in_empty.
  - destruct text as [|c rest].
    { constructor; [|constructor].
      intros before after. now apply no_occurrence_in_empty. }
    cbn [length] in Hn. cbn [split_scan].
    destruct (starts_with sep (c :: rest)) eqn:Es.
    + apply starts_with_app in Es as [rest' Er].
      destruct sep as [|p sep']; [congruence|].
      cbn [app] in Er. injection Er as -> ->.
      cbn [length]. replace (S (length sep') - 1)%nat with (length sep') by lia.
      rewrite split_scan_skip. constructor.
      * intros before after. now apply no_occurrence_in_empty.
      * apply IH. rewrite length_app in Hn. lia.
    + pose proof (IH rest ltac:(lia)) as Hrest.
      destruct (split_scan sep 0 rest) as [|piece pieces] eqn:Ep;
        [now apply split_scan_nonempty in Ep|].
      inversion Hrest as [|? ? Hpiece Hpieces]; subst.
      constructor; [|exact Hpieces].
      intros [|b before] after Eb; cbn [app] in Eb.
      * destruct (split_scan_first_prefix rest Hsep Ep) as [tail Et].
        assert (starts_with sep (c :: rest) = true) as Es'.
        { apply starts_with_app. exists (after ++ tail).
          rewrite Et, app_comm_cons, Eb. now rewrite <- app_assoc. }
        congruence.
      * injection Eb as _ Eb. now apply Hpiece in Eb.
Qed.

(** X29.  No piece of [text.split(sep)] contains the separator: in
    particular no sentence of the semantic chunking notebook contains
    [". "]. *)
Theorem split_pieces_without_separator (input sep : str) (pieces : list str) :
  split input sep = Ok pieces ->
  Forall (fun piece => forall before after, piece <> before ++ sep ++ after)
         pieces.
Proof.
  unfold split. destruct sep as [|p sep'] eqn:Es; [discriminate|].
  intros E. injection E as <-.
  apply split_scan_no_separator with (n := length input);
    [discriminate|lia].
Qed.

(** X29 on three sentences. *)
Lemma split_pieces_without_separator_witness :
  split (s "One. Two. Three.") (s ". ") = Ok (map s ["One"; "Two"; "Three."])
  /\ Forall (fun piece => forall before after,
                 piece <> before ++ s ". " ++ after)
            (map s ["One"; "Two"; "Three."]).
Proof.
  assert (split (s "One. Two. Three.") (s ". ")
          = Ok (map s ["One"; "Two"; "Three."])) as E by reflexivity.
  split; [exact E|].
  exact (@split_pieces_without_separator (s "One. Two. Three.") (s ". ") _ E).
Defined.

End SplitPieces.
